(** * gdsfactory.routing.add_electrical_pads_shortest

    A shallow embedding of [add_electrical_pads_shortest] and of the part of
    the gdsfactory object model it touches (components, references, ports),
    followed by the properties of the routine.

    Conventions of the embedding.
    - Python [float] coordinates are idealised as exact rationals ([Qc], the
      canonical rationals, so that equal coordinates are equal terms). The
      two arithmetics agree where the floats do not round, as on the whole
      numbers of the scenarios below.
    - Python objects that the routine mutates live in a heap of cells; a
      [Component] value in Python is a location of that heap.
    - A Python [dict] is an association list in insertion order.
    - Exceptions are values of [exn]; a computation is a function from the
      heap to an outcome and the heap it leaves behind. *)

From Stdlib Require Import QArith Qcanon.
From stdpp Require Import base numbers pretty strings gmap list.

Close Scope Qc_scope.
Close Scope Q_scope.

(** ** Python dictionaries *)

Abbreviation dict V := (list (string * V)).

Section dict.
Context {V : Type}.

Definition keys (d : dict V) : list string := d.*1.
Definition values (d : dict V) : list V := d.*2.

(** [d[k]], [None] standing for the missing key. *)
Fixpoint dict_get (k : string) (d : dict V) : option V :=
  match d with
  | [] => None
  | (k', v) :: d => if decide (k = k') then Some v else dict_get k d
  end.

(** [d.pop(k)]: the dictionary without the entry of [k],
    [None] when [k] is not a key. *)
Fixpoint dict_pop (k : string) (d : dict V) : option (dict V) :=
  match d with
  | [] => None
  | (k', v) :: d =>
      if decide (k = k') then Some d
      else cons (k', v) <$> dict_pop k d
  end.
End dict.

(** ** Ports, references, components *)

Definition LayerSpec : Type := string.

Module Port.
Record t : Type := make {
  name : string;
  x : Qc;
  y : Qc;
  orientation : Qc;
  width : Qc;
  layer : LayerSpec;
  port_type : string
}.

(** [port.copy()] followed by [port.name = n]. *)
Definition rename (n : string) (p : t) : t :=
  make n (x p) (y p) (orientation p) (width p) (layer p) (port_type p).

(** The port seen through a reference displaced by [(dx, dy)]. *)
Definition move (d : Qc * Qc) (p : t) : t :=
  make (name p) (x p + d.1) (y p + d.2) (orientation p) (width p)
       (layer p) (port_type p).
End Port.

Global Instance Port_eq_dec : EqDecision Port.t.
Proof. solve_decision. Defined.

(** Heap locations of components. *)
Abbreviation loc := nat.

(** Modelled from the spec: [route_quad] is imported from another module.
    It returns "a single routing shape on the configured metal layer
    connecting the two" ports (spec, 4.3); the shape is recorded by its two
    ends and its layer. *)
Record RouteQuad : Type := route_quad {
  port1 : Port.t;
  port2 : Port.t;
  route_layer : LayerSpec
}.

(** What a reference instantiates: a component of the heap, or a routing
    shape. *)
Inductive Cell : Type :=
  | Placed (l : loc)
  | Routed (r : RouteQuad).

Module ComponentReference.
Record t : Type := make {
  parent : Cell;
  origin : Qc * Qc
}.
End ComponentReference.

Global Instance RouteQuad_eq_dec : EqDecision RouteQuad.
Proof. solve_decision. Defined.
Global Instance Cell_eq_dec : EqDecision Cell.
Proof. solve_decision. Defined.
Global Instance ComponentReference_eq_dec : EqDecision ComponentReference.t.
Proof. solve_decision. Defined.

Module Component.
Record t : Type := make {
  name : string;
  ports : dict Port.t;
  references : list ComponentReference.t;
  info : gmap string Qc
}.

(** The content of a component just created. *)
Definition new : t := make "Unnamed" [] [] ∅.

Definition with_ports (f : dict Port.t → dict Port.t) (c : t) : t :=
  make (name c) (f (ports c)) (references c) (info c).
Definition with_references
    (f : list ComponentReference.t → list ComponentReference.t) (c : t) : t :=
  make (name c) (ports c) (f (references c)) (info c).
Definition with_info (f : gmap string Qc → gmap string Qc) (c : t) : t :=
  make (name c) (ports c) (references c) (f (info c)).
End Component.

(** ** Exceptions and the heap monad *)

Inductive exn : Type :=
  | KeyError (key : string)
  | AttributeError (attr : string)
  | ValueError (msg : string).

(** [KeyError] is the only subclass of [LookupError] among them. *)
Definition is_LookupError (e : exn) : bool :=
  match e with KeyError _ => true | _ => false end.

Abbreviation heap := (list Component.t).

Definition M (A : Type) : Type := heap → (exn + A) * heap.

Global Instance M_ret : MRet M := λ A a h, (inr a, h).
Global Instance M_bind : MBind M := λ A B f m h,
  match m h with
  | (inl e, h') => (inl e, h')
  | (inr a, h') => f a h'
  end.

Definition raise {A : Type} (e : exn) : M A := λ h, (inl e, h).

(** Reading and updating the cell at a location. *)
Definition cell (l : loc) : M Component.t := λ h,
  match h !! l with
  | Some c => (inr c, h)
  | None => (inl (ValueError "no such component"), h)
  end.

Definition update (l : loc) (f : Component.t → Component.t) : M unit := λ h,
  match h !! l with
  | Some c => (inr (), <[l := f c]> h)
  | None => (inl (ValueError "no such component"), h)
  end.

(** [for a in l: body(a)] and [for i, a in enumerate(l, start): body(i, a)]. *)
Fixpoint for_each {A : Type} (body : A → M unit) (l : list A) : M unit :=
  match l with
  | [] => mret ()
  | a :: l => body a;; for_each body l
  end.

Fixpoint for_enumerate {A : Type} (body : nat → A → M unit)
    (start : nat) (l : list A) : M unit :=
  match l with
  | [] => mret ()
  | a :: l => body start a;; for_enumerate body (S start) l
  end.

(** [[f(a) for a in l]]. *)
Fixpoint comprehension {A B : Type} (f : A → M B) (l : list A) : M (list B) :=
  match l with
  | [] => mret []
  | a :: l => b ← f a; bs ← comprehension f l; mret (b :: bs)
  end.

(** ** The object model used by the routine

    The routine is written against the classes [Component],
    [ComponentReference] and [Port] of gdsfactory, which are defined in
    other modules. Their operations are modelled here from what the spec says
    of them (sections 3, 4 and 6); the operators of Python itself ([d[k]],
    [d.pop(k)], [o.values()], truthiness) follow the language. *)

(** A reference held by the routine: the [index]-th reference of the
    component at [owner]. *)
Record ref : Type := Ref { owner : loc; index : nat }.

(** A value that the variable [ports] can hold at line 50-54: the list built
    by the comprehension, or the mapping returned by [select_ports]. *)
Inductive pyobj : Type :=
  | PyList (l : list Port.t)
  | PyDict (d : dict Port.t).

(** [truthiness] of an optional sequence of names: [None] and the empty
    sequence are false. *)
Definition truthy (port_names : option (list string)) : bool :=
  match port_names with
  | Some (_ :: _) => true
  | _ => false
  end.

(** [f"elec-{name}-{i+1}"] *)
Definition pad_port_name (name : string) (i : nat) : string :=
  "elec-" +:+ name +:+ "-" +:+ pretty (i + 1).

Section routine.
(** The geometry kernel, a collaborator out of scope (spec, 1): the centre
    of the bounding box of a cell's contents, in the cell's own
    coordinates. *)
Variable center_of : Component.t + RouteQuad → Qc * Qc.

(** Modelled from the spec: [Component()]; "the output Component is
    created empty" (spec, 3). The new component is a fresh cell. *)
Definition Component_new : M loc := λ h,
  (inr (length h), h ++ [Component.new]).

(** Modelled from the spec: [gf.get_component(spec)] resolves a component
    spec to the component it designates. A spec is given here by the
    location of that component; a dangling one is refused. *)
Definition get_component (spec : loc) : M loc :=
  _ ← cell spec; mret spec.

(** Modelled from the spec: [c.add_ref(what)], also written [c << what],
    adds to [c] a reference to [what], unmoved, and returns it (spec, 3: the
    output is "populated by one reference to the original component and one
    reference per selected pad"). *)
Definition add_ref (c : loc) (what : Cell) : M ref :=
  cc ← cell c;
  update c (Component.with_references
              (λ rs, rs ++ [ComponentReference.make what (0, 0)%Qc]));;
  mret (Ref c (length (Component.references cc))).

(** The reference behind a handle, and the contents of what a reference
    instantiates. *)
Definition reference (r : ref) : M ComponentReference.t :=
  cc ← cell (owner r);
  match Component.references cc !! index r with
  | Some cr => mret cr
  | None => raise (ValueError "no such reference")
  end.

Definition contents (what : Cell) : M (Component.t + RouteQuad) :=
  match what with
  | Placed l => pc ← cell l; mret (inl pc)
  | Routed q => mret (inr q)
  end.

(** Modelled from the spec: [r.ports], the ports of the parent as seen
    through the reference: copies displaced by the origin of the reference,
    under the same names. A routing shape has no ports. *)
Definition ref_ports (r : ref) : M (dict Port.t) :=
  cr ← reference r;
  g ← contents (ComponentReference.parent cr);
  match g with
  | inl pc =>
      mret (prod_map id (Port.move (ComponentReference.origin cr))
              <$> Component.ports pc)
  | inr _ => mret []
  end.

(** [d[k]] on a dictionary: [KeyError] on a missing key. *)
Definition getitem {V : Type} (d : dict V) (k : string) : M V :=
  match dict_get k d with
  | Some v => mret v
  | None => raise (KeyError k)
  end.

(** [r.ports[k]] *)
Definition ports_getitem (r : ref) (k : string) : M Port.t :=
  ps ← ref_ports r; getitem ps k.

(** Modelled from the spec: [ComponentReference.__getitem__], written
    [r[k]], is not in the file; the spec (4.1, 7) has an unknown name fail
    with a lookup error, and a known name yields the port of that name. *)
Definition ref_getitem (r : ref) (k : string) : M Port.t :=
  ports_getitem r k.

(** Modelled from the spec: [r.center], the centre of the bounding box of
    the reference, which is the centre of its parent displaced by the origin
    of the reference. *)
Definition ref_center (r : ref) : M (Qc * Qc) :=
  cr ← reference r;
  g ← contents (ComponentReference.parent cr);
  mret ((center_of g).1 + (ComponentReference.origin cr).1,
        (center_of g).2 + (ComponentReference.origin cr).2)%Qc.

(** Modelled from the spec: [r.move(destination, origin)] displaces the
    reference by [destination - origin]. *)
Definition ref_move (r : ref) (destination from : Qc * Qc) : M unit :=
  update (owner r) (Component.with_references
    (alter (λ cr, ComponentReference.make (ComponentReference.parent cr)
              ((ComponentReference.origin cr).1 + (destination.1 - from.1),
               (ComponentReference.origin cr).2 + (destination.2 - from.2))%Qc)
           (index r))).

(** Modelled from the spec: [r.x = v] and [r.y = v] move the reference so
    that the centre of its bounding box gets the coordinate [v], the other
    coordinate being kept (spec, 4.2 and 8: "new pad center at ..."). *)
Definition set_x (r : ref) (v : Qc) : M unit :=
  ctr ← ref_center r; ref_move r (v, ctr.2) ctr.
Definition set_y (r : ref) (v : Qc) : M unit :=
  ctr ← ref_center r; ref_move r (ctr.1, v) ctr.

(** Modelled from the spec: [Component.add_port] is not in the file; port
    names within a component are unique (spec, 3), so a name already
    present is refused. The port is copied under the new name. *)
Definition add_port (c : loc) (port : Port.t) (name : string) : M unit :=
  cc ← cell c;
  if decide (name ∈ keys (Component.ports cc))
  then raise (ValueError "port name exists already")
  else update c (Component.with_ports
                   (λ ps, ps ++ [(name, Port.rename name port)])).

(** Modelled from the spec: [c.add_ports(ports)] adds every port of the
    mapping, under the port's own name (spec, 4.4: "copy every port of the
    original component reference into the output's port set"). The spec
    speaks of ports stored under their own names, distinct from one another
    (spec, 3); what the library does with a mapping that is not so is not
    part of it. *)
Definition add_ports (c : loc) (ports : dict Port.t) : M unit :=
  for_each (λ port, add_port c port (Port.name port)) (values ports).

(** [c.ports.pop(name)]: [KeyError] when the name is not a key. *)
Definition ports_pop (c : loc) (name : string) : M unit :=
  cc ← cell c;
  match dict_pop name (Component.ports cc) with
  | Some ps => update c (Component.with_ports (λ _, ps))
  | None => raise (KeyError name)
  end.

(** Modelled from the spec: [c.copy_child_info(component)] propagates the
    info of the component to [c] (spec, 4.4, step 3). *)
Definition copy_child_info (c component : loc) : M unit :=
  comp ← cell component;
  update c (Component.with_info (λ i, Component.info comp ∪ i)).

(** [component.info[k]]: the entry [k] of the info of a component. The info
    is an object of the library, not a dictionary: a subscript reads the
    attribute of that name, and one that is missing is an error, an
    [AttributeError]. No property below depends on the class of that
    error. *)
Definition info_getitem (component : loc) (k : string) : M Qc :=
  comp ← cell component;
  match Component.info comp !! k with
  | Some v => mret v
  | None => raise (AttributeError k)
  end.

(** [o.values()]: a list has no such method. *)
Definition py_values (o : pyobj) : M (list Port.t) :=
  match o with
  | PyDict d => mret (values d)
  | PyList _ => raise (AttributeError "values")
  end.

(** ** The routine *)

(** Lines 50-55: the ports to process. *)
Definition selected_ports (r : ref) (select_ports : dict Port.t → dict Port.t)
    (port_names : option (list string)) : M (list Port.t) :=
  ports ← (if truthy port_names
           then l ← comprehension (ref_getitem r) (default [] port_names);
                mret (PyList l)
           else rp ← ref_ports r;
                mret (PyDict (select_ports rp)));
  py_values ports.

(** Lines 60-79: the body of the loop over the selected ports. *)
Definition place_pad (c component pad : loc) (pad_port_spacing : Qc)
    (port_orientation : Qc) (layer : LayerSpec)
    (i : nat) (port : Port.t) : M unit :=
  p ← add_ref c (Placed pad);
  (if decide (port_orientation = Qc_of_Z 0) then
     set_x p (Port.x port + pad_port_spacing)%Qc;;
     set_y p (Port.y port);;
     pin ← ports_getitem p "e1";
     _ ← add_ref c (Routed (route_quad port pin layer)); mret ()
   else if decide (port_orientation = Qc_of_Z 180) then
     set_x p (Port.x port - pad_port_spacing)%Qc;;
     set_y p (Port.y port);;
     pin ← ports_getitem p "e3";
     _ ← add_ref c (Routed (route_quad port pin layer)); mret ()
   else if decide (port_orientation = Qc_of_Z 90) then
     set_y p (Port.y port + pad_port_spacing)%Qc;;
     set_x p (Port.x port);;
     pin ← ports_getitem p "e4";
     _ ← add_ref c (Routed (route_quad port pin layer)); mret ()
   else if decide (port_orientation = Qc_of_Z 270) then
     set_y p (Port.y port - pad_port_spacing)%Qc;;
     set_x p (Port.x port);;
     pin ← ports_getitem p "e2";
     _ ← add_ref c (Routed (route_quad port pin layer)); mret ()
   else mret ());;
  pad_port ← ports_getitem p "pad";
  comp ← cell component;
  add_port c pad_port (pad_port_name (Component.name comp) i).

Definition add_electrical_pads_shortest
    (component pad : loc) (pad_port_spacing : Qc)
    (select_ports : dict Port.t → dict Port.t)
    (port_names : option (list string))
    (port_orientation : Qc) (layer : LayerSpec) : M loc :=
  c ← Component_new;
  component ← get_component component;
  pad ← get_component pad;
  r ← add_ref c (Placed component);
  ports ← selected_ports r select_ports port_names;
  xsize ← info_getitem pad "xsize";
  let pad_port_spacing := (pad_port_spacing + xsize / Qc_of_Z 2)%Qc in
  for_enumerate
    (place_pad c component pad pad_port_spacing port_orientation layer)
    0 ports;;
  rp ← ref_ports r;
  add_ports c rp;;
  for_each (λ port, ports_pop c (Port.name port)) ports;;
  copy_child_info c component;;
  mret c.
End routine.

(** ** The scenario of the specification (section 8)

    A straight wire of length 200 named [wire], and a square pad of
    half-extent 10 centred on its own origin. *)

Definition electrical_port (name : string) (x y orientation : Z) : Port.t :=
  Port.make name (Qc_of_Z x) (Qc_of_Z y) (Qc_of_Z orientation)
            (Qc_of_Z 10) "M3" "electrical".

Definition wire : Component.t :=
  Component.make "wire"
    [("e1", electrical_port "e1" 0 0 180);
     ("e2", electrical_port "e2" 200 0 0)]
    [] ∅.

(** Modelled from the spec: the pad cell is built in another module. A
    rectangular pad of the given size, centred on its origin: pins [e1]
    (west, "at local offset -h from pad center along x", spec, 8), [e2]
    (north), [e3] (east), [e4] (south) in the middle of its edges, the port
    [pad] at its centre, and its size in its info. *)
Definition pad_of_size (xsize ysize : Z) : Component.t :=
  Component.make "pad"
    [("e1", Port.make "e1" (- Qc_of_Z xsize / Qc_of_Z 2) (Qc_of_Z 0) (Qc_of_Z 180)
                      (Qc_of_Z ysize) "M3" "electrical");
     ("e2", Port.make "e2" (Qc_of_Z 0) (Qc_of_Z ysize / Qc_of_Z 2) (Qc_of_Z 90)
                      (Qc_of_Z xsize) "M3" "electrical");
     ("e3", Port.make "e3" (Qc_of_Z xsize / Qc_of_Z 2) (Qc_of_Z 0) (Qc_of_Z 0)
                      (Qc_of_Z ysize) "M3" "electrical");
     ("e4", Port.make "e4" (Qc_of_Z 0) (- Qc_of_Z ysize / Qc_of_Z 2) (Qc_of_Z 270)
                      (Qc_of_Z xsize) "M3" "electrical");
     ("pad", Port.make "pad" (Qc_of_Z 0) (Qc_of_Z 0) (Qc_of_Z 0)
                       (Qc_of_Z xsize) "M3" "vertical_dc")]
    []
    (<["xsize" := Qc_of_Z xsize]> (<["ysize" := Qc_of_Z ysize]> ∅)).

(** Cells centred on their own origin. *)
Definition centred : Component.t + RouteQuad → Qc * Qc :=
  λ _, (Qc_of_Z 0, Qc_of_Z 0).

(** Modelled from the spec: [select_ports_electrical] is imported from
    another module; the spec (4.1) describes it as "all electrical-role
    ports". *)
Definition select_ports_electrical (ports : dict Port.t) : dict Port.t :=
  filter (λ kv, Port.port_type kv.2 = "electrical") ports.

(** The heap of the scenario: the wire at location 0, the pad at 1. *)
Definition scenario : heap := [wire; pad_of_size 20 20].

(** ** What one invocation builds

    Closed forms of the references and ports that the routine adds to the
    output component; the theorems below relate them to the routine. *)

(** The branch of lines 62-77 taken for a port: the centre given to the pad
    and the name of the pad pin handed to the router, [None] when no branch
    is taken. [spacing] is the value of [pad_port_spacing] after line 57. *)
Definition placement (port_orientation spacing : Qc) (port : Port.t)
    : option (Qc * Qc * string) :=
  if decide (port_orientation = Qc_of_Z 0) then
    Some ((Port.x port + spacing)%Qc, Port.y port, "e1")
  else if decide (port_orientation = Qc_of_Z 180) then
    Some ((Port.x port - spacing)%Qc, Port.y port, "e3")
  else if decide (port_orientation = Qc_of_Z 90) then
    Some (Port.x port, (Port.y port + spacing)%Qc, "e4")
  else if decide (port_orientation = Qc_of_Z 270) then
    Some (Port.x port, (Port.y port - spacing)%Qc, "e2")
  else None.

(** The pin of the pad that each branch looks up, when a branch is taken. *)
Definition pin_of (port_orientation : Qc) : option string :=
  if decide (port_orientation = Qc_of_Z 0) then Some "e1"
  else if decide (port_orientation = Qc_of_Z 180) then Some "e3"
  else if decide (port_orientation = Qc_of_Z 90) then Some "e4"
  else if decide (port_orientation = Qc_of_Z 270) then Some "e2"
  else None.

(** [pad_port_spacing] after line 57. *)
Definition clearance (pad_port_spacing : Qc) (padc : Component.t) : Qc :=
  (pad_port_spacing + default (Qc_of_Z 0) (Component.info padc !! "xsize")
                      / Qc_of_Z 2)%Qc.

Section outcome.
Variable center_of : Component.t + RouteQuad → Qc * Qc.
Variables (pad : loc) (padc : Component.t).
Variables (port_orientation spacing : Qc) (layer : LayerSpec).

(** The origin of the pad reference after the branch: displaced so that
    its centre is the target of [placement], left at the origin when no
    branch is taken. *)
Definition pad_origin (port : Port.t) : Qc * Qc :=
  match placement port_orientation spacing port with
  | Some (tx, ty, _) =>
      (tx - (center_of (inl padc)).1, ty - (center_of (inl padc)).2)%Qc
  | None => (0, 0)%Qc
  end.

(** The centre of the pad reference of a port: [p.x, p.y]. *)
Definition pad_center (port : Port.t) : Qc * Qc :=
  ((center_of (inl padc)).1 + (pad_origin port).1,
   (center_of (inl padc)).2 + (pad_origin port).2)%Qc.

Definition pad_reference (port : Port.t) : ComponentReference.t :=
  ComponentReference.make (Placed pad) (pad_origin port).

(** The reference to the routing shape of a port, if a branch is taken. *)
Definition route_references (port : Port.t) : list ComponentReference.t :=
  match placement port_orientation spacing port with
  | Some (_, _, pin) =>
      match dict_get pin (Component.ports padc) with
      | Some q =>
          [ComponentReference.make
             (Routed (route_quad port (Port.move (pad_origin port) q) layer))
             (0, 0)%Qc]
      | None => []
      end
  | None => []
  end.

(** The references added by the loop, in order. *)
Definition placed_references (ports : list Port.t)
    : list ComponentReference.t :=
  flat_map (λ port, pad_reference port :: route_references port) ports.

(** The entry of the output's port dictionary for the [i]-th selected
    port ([i] counted from 0): the [pad] port of its pad, renamed. *)
Definition exposed_port (name : string) (pp : Port.t) (i : nat)
    (port : Port.t) : string * Port.t :=
  (pad_port_name name i,
   Port.rename (pad_port_name name i) (Port.move (pad_origin port) pp)).

Fixpoint exposed_ports (name : string) (pp : Port.t) (start : nat)
    (ports : list Port.t) : dict Port.t :=
  match ports with
  | [] => []
  | port :: ports =>
      exposed_port name pp start port
      :: exposed_ports name pp (S start) ports
  end.
End outcome.

(** Ports keyed by their names, as [add_ports] stores them. *)
Definition by_name (ports : list Port.t) : dict Port.t :=
  (λ p, (Port.name p, p)) <$> ports.

(** The names of a list of ports. *)
Definition names (ports : list Port.t) : list string := Port.name <$> ports.

(** The pad offers what the routine reads from it: the entry [xsize] of its
    info, its port [pad], and the pin of the branch taken for the
    orientation, if any. *)
Definition pad_ready (padc : Component.t) (port_orientation : Qc) : Prop :=
  is_Some (Component.info padc !! "xsize")
  ∧ is_Some (dict_get "pad" (Component.ports padc))
  ∧ ∀ pin, pin_of port_orientation = Some pin →
           is_Some (dict_get pin (Component.ports padc)).

(** The selected ports are ports of the component, each selected once, and
    the names of the component's ports are distinct. *)
Definition selection_of (comp : Component.t) (selected : list Port.t) : Prop :=
  NoDup (names (values (Component.ports comp)))
  ∧ NoDup selected
  ∧ ∀ port, port ∈ selected → port ∈ values (Component.ports comp).

(** None of the names given to the pad ports is the name of a port of the
    component. *)
Definition collision_free (comp : Component.t) (n : nat) : Prop :=
  ∀ j, j < n →
       pad_port_name (Component.name comp) j
       ∉ names (values (Component.ports comp)).

(** The output component: the pad ports of the selected ports, then the
    ports of the wrapped component that were not selected; the reference to
    the wrapped component, then the pads and routing shapes. [pp] is the
    port [pad] of the pad. *)
Definition output (center_of : Component.t + RouteQuad → Qc * Qc)
    (component pad : loc) (comp padc : Component.t) (pp : Port.t)
    (pad_port_spacing port_orientation : Qc) (layer : LayerSpec)
    (selected : list Port.t) : Component.t :=
  let spacing := clearance pad_port_spacing padc in
  Component.make
    (Component.name Component.new)
    (exposed_ports center_of padc port_orientation spacing
       (Component.name comp) pp 0 selected
     ++ by_name (filter (λ p, Port.name p ∉ names selected)
                        (values (Component.ports comp))))
    (ComponentReference.make (Placed component) (0, 0)%Qc
     :: placed_references center_of pad padc port_orientation spacing layer
          selected)
    (Component.info comp ∪ ∅).

(** The references of a component that instantiate the pad, and those that
    instantiate a routing shape. *)
Definition pad_references (pad : loc) (out : Component.t)
    : list ComponentReference.t :=
  filter (λ r, ComponentReference.parent r = Placed pad)
         (Component.references out).

Definition is_routed (r : ComponentReference.t) : bool :=
  match ComponentReference.parent r with
  | Routed _ => true
  | Placed _ => false
  end.

Definition routing_shapes (out : Component.t) : list ComponentReference.t :=
  filter (λ r, is_routed r = true) (Component.references out).

(** The position of the port of a component under a name, as a pair of
    reduced fractions. *)
Definition port_position (name : string) (out : Component.t) : option (Q * Q) :=
  (λ p, (Qcanon.this (Port.x p), Qcanon.this (Port.y p)))
    <$> dict_get name (Component.ports out).

(** A point as a pair of reduced fractions. *)
Definition fractions (p : Qc * Qc) : Q * Q := (Qcanon.this p.1, Qcanon.this p.2).

(** The extent of the pad along the axis on which it is connected, read
    from its info: [xsize] for a pad placed to the east or west of the port,
    [ysize] for a pad placed to the north or south. *)
Definition extent_along_axis (padc : Component.t) (port_orientation : Qc)
    : option Qc :=
  if decide (port_orientation = Qc_of_Z 0) then Component.info padc !! "xsize"
  else if decide (port_orientation = Qc_of_Z 180) then
    Component.info padc !! "xsize"
  else if decide (port_orientation = Qc_of_Z 90) then
    Component.info padc !! "ysize"
  else if decide (port_orientation = Qc_of_Z 270) then
    Component.info padc !! "ysize"
  else None.

(** The centre of the pad when the clearance is the caller's spacing [d]
    plus the half-extent [half] of the pad: east, west, north or south of
    the port. *)
Definition center_at_clearance (port_orientation d half : Qc) (port : Port.t)
    : option (Qc * Qc) :=
  if decide (port_orientation = Qc_of_Z 0) then
    Some (Port.x port + d + half, Port.y port)%Qc
  else if decide (port_orientation = Qc_of_Z 180) then
    Some (Port.x port - d - half, Port.y port)%Qc
  else if decide (port_orientation = Qc_of_Z 90) then
    Some (Port.x port, Port.y port + d + half)%Qc
  else if decide (port_orientation = Qc_of_Z 270) then
    Some (Port.x port, Port.y port - d - half)%Qc
  else None.

(** The outcome of the list comprehension of line 51 over the ports [ps] of
    the reference: the ports under the given names, or the [KeyError] of the
    first name that is not a key. *)
Fixpoint resolve (ps : dict Port.t) (port_names : list string)
    : exn + list Port.t :=
  match port_names with
  | [] => inr []
  | n :: port_names =>
      match dict_get n ps with
      | None => inl (KeyError n)
      | Some p =>
          match resolve ps port_names with
          | inl e => inl e
          | inr l => inr (p :: l)
          end
      end
  end.

(** ** Predicates on computations *)

(** A computation that only reads the heap. *)
Definition reads {A : Type} (m : M A) : Prop := ∀ h, (m h).2 = h.

(** The heap [h'] has the cells of [h], unchanged except for the cell at
    [c]. *)
Definition preserves (c : loc) (h h' : heap) : Prop :=
  length h' = length h ∧ ∀ l, l ≠ c → h' !! l = h !! l.

(** Running [m] changes no cell other than [c] and allocates nothing. *)
Definition frames {A : Type} (c : loc) (m : M A) : Prop :=
  ∀ h, preserves c h (m h).2.

(** ** When the routine returns *)

(** [for n in ns: d.pop(n)] (lines 83-84): the outcome, and the dictionary
    left when the loop stops. *)
Fixpoint pop_all {V : Type} (d : dict V) (ns : list string)
    : (exn + unit) * dict V :=
  match ns with
  | [] => (inr (), d)
  | n :: ns =>
      match dict_pop n d with
      | Some d' => pop_all d' ns
      | None => (inl (KeyError n), d)
      end
  end.

(** The names under which the pad ports of [n] selected ports are
    exposed. *)
Definition pad_port_names (name : string) (n : nat) : list string :=
  pad_port_name name <$> seq 0 n.

(** The condition under which the routine returns, for a component and a
    pad that exist. A pad that is never placed (no port selected) needs
    neither its port [pad] nor a pin. *)
Definition returns_when (comp padc : Component.t) (port_orientation : Qc)
    (port_names : option (list string)) (selected : list Port.t) : Prop :=
  truthy port_names = false
  ∧ is_Some (Component.info padc !! "xsize")
  ∧ (selected ≠ [] →
     is_Some (dict_get "pad" (Component.ports padc))
     ∧ ∀ pin, pin_of port_orientation = Some pin →
              is_Some (dict_get pin (Component.ports padc)))
  ∧ NoDup (names (values (Component.ports comp)))
  ∧ collision_free comp (length selected)
  ∧ NoDup (names selected)
  ∧ ∀ n, n ∈ names selected →
         n ∈ pad_port_names (Component.name comp) (length selected)
             ++ names (values (Component.ports comp)).

(** The ports of the component are stored under their own names, and the
    names are distinct. *)
Definition well_named (comp : Component.t) : Prop :=
  keys (Component.ports comp) = names (values (Component.ports comp))
  ∧ NoDup (names (values (Component.ports comp))).

(** A whole number of magnitude below 2^40. Such numbers and their halves
    are binary64 floats, and so are the sums and differences of a few of
    them: on them the float arithmetic of lines 57-79 does not round, and
    is the arithmetic of the rationals. *)
Definition whole (q : Qc) : Prop :=
  Qden (Qcanon.this q) = 1%positive
  ∧ (Z.abs (Qnum (Qcanon.this q)) < 2 ^ 40)%Z.

(** A port at whole coordinates. *)
Definition whole_port (p : Port.t) : Prop :=
  whole (Port.x p) ∧ whole (Port.y p).

(** The numbers that enter the placement of a pad are whole: the spacing
    asked for, the [xsize] of the pad, and the centre of the pad. *)
Definition whole_inputs (center_of : Component.t + RouteQuad → Qc * Qc)
    (padc : Component.t) (pad_port_spacing xsize : Qc) : Prop :=
  whole pad_port_spacing ∧ whole xsize
  ∧ whole (center_of (inl padc)).1 ∧ whole (center_of (inl padc)).2.

(** The point at distance [t] ahead of a port in the direction of the
    branch taken: east, west, north or south of it. *)
Definition ahead (port_orientation t : Qc) (port : Port.t)
    : option (Qc * Qc) :=
  if decide (port_orientation = Qc_of_Z 0) then
    Some (Port.x port + t, Port.y port)%Qc
  else if decide (port_orientation = Qc_of_Z 180) then
    Some (Port.x port - t, Port.y port)%Qc
  else if decide (port_orientation = Qc_of_Z 90) then
    Some (Port.x port, Port.y port + t)%Qc
  else if decide (port_orientation = Qc_of_Z 270) then
    Some (Port.x port, Port.y port - t)%Qc
  else None.

(** The point of a pad at distance [w] from its centre, on the side that
    faces the port in the branch taken: west, east, south or north of the
    centre. *)
Definition facing (port_orientation w : Qc) (centre : Qc * Qc)
    : option (Qc * Qc) :=
  if decide (port_orientation = Qc_of_Z 0) then
    Some (centre.1 - w, centre.2)%Qc
  else if decide (port_orientation = Qc_of_Z 180) then
    Some (centre.1 + w, centre.2)%Qc
  else if decide (port_orientation = Qc_of_Z 90) then
    Some (centre.1, centre.2 - w)%Qc
  else if decide (port_orientation = Qc_of_Z 270) then
    Some (centre.1, centre.2 + w)%Qc
  else None.

(** The position of a port. *)
Definition position (p : Port.t) : Qc * Qc := (Port.x p, Port.y p).

(** The routing shape of a selected port, from the port to the pin [q] of
    its pad. *)
Definition route_reference (center_of : Component.t + RouteQuad → Qc * Qc)
    (padc : Component.t) (port_orientation spacing : Qc) (layer : LayerSpec)
    (q port : Port.t) : ComponentReference.t :=
  ComponentReference.make
    (Routed (route_quad port
               (Port.move (pad_origin center_of padc port_orientation spacing
                             port) q)
               layer))
    (0, 0)%Qc.

Global Instance collision_free_dec comp n : Decision (collision_free comp n).
Proof.
  refine (cast_if (decide (Forall
    (λ j, pad_port_name (Component.name comp) j
          ∉ names (values (Component.ports comp))) (seq 0 n))));
    unfold collision_free; rewrite Forall_forall in *.
  - intros j Hj. apply f. apply elem_of_seq. lia.
  - intros Hfree. apply n0. intros j Hj%elem_of_seq. apply Hfree. lia.
Defined.

(** A port to stand for the port [pad] of a pad that has none. *)
Definition no_port : Port.t :=
  Port.make "" (Qc_of_Z 0) (Qc_of_Z 0) (Qc_of_Z 0) (Qc_of_Z 0) "" "".

(** The content of the component returned: the pad ports and the ports of
    the component, without those that the pops of lines 83-84 remove; the
    reference to the component, then the pads and the routing shapes. *)
Definition returned (center_of : Component.t + RouteQuad → Qc * Qc)
    (component pad : loc) (comp padc : Component.t)
    (pad_port_spacing port_orientation : Qc) (layer : LayerSpec)
    (selected : list Port.t) : Component.t :=
  let spacing := clearance pad_port_spacing padc in
  let pp := default no_port (dict_get "pad" (Component.ports padc)) in
  Component.make (Component.name Component.new)
    (filter (λ kv, kv.1 ∉ names selected)
       (exposed_ports center_of padc port_orientation spacing
          (Component.name comp) pp 0 selected
        ++ by_name (values (Component.ports comp))))
    (ComponentReference.make (Placed component) (0, 0)%Qc
     :: placed_references center_of pad padc port_orientation spacing layer
          selected)
    (Component.info comp ∪ ∅).

(** Pads and selectors for the edge cases: a pad that has only its info, a
    pad without info, a pad without pins, a pad without the port [pad]; a
    wire one port of which has the name given to the first pad port; a
    selector that returns the first port under two keys, and one that
    selects nothing. *)
Definition bare_pad : Component.t :=
  Component.make "pad" [] [] (<["xsize" := Qc_of_Z 20]> ∅).


Definition pad_without_pins : Component.t :=
  Component.make "pad"
    (filter (λ kv, kv.1 = "pad") (Component.ports (pad_of_size 20 20))) []
    (Component.info (pad_of_size 20 20)).

Definition pad_without_pad_port : Component.t :=
  Component.make "pad"
    (filter (λ kv, kv.1 ≠ "pad") (Component.ports (pad_of_size 20 20))) []
    (Component.info (pad_of_size 20 20)).

Definition clashing_wire : Component.t :=
  Component.make "wire"
    [("e1", electrical_port "e1" 0 0 180);
     ("elec-wire-1", electrical_port "elec-wire-1" 200 0 0)]
    [] ∅.

Definition select_first_twice (ports : dict Port.t) : dict Port.t :=
  match ports with
  | [] => []
  | (k, p) :: _ => [("first", p); ("again", p)]
  end.

Definition select_nothing (ports : dict Port.t) : dict Port.t := [].

(** * Properties *)

(** ** Dictionaries *)

Section dict_facts.
Context {V : Type}.
Implicit Types (d : dict V) (k : string).

Lemma keys_cons k (v : V) d : keys ((k, v) :: d) = k :: keys d.
Proof. reflexivity. Qed.

Lemma keys_app d1 d2 : keys (d1 ++ d2) = keys d1 ++ keys d2.
Proof. apply fmap_app. Qed.

Lemma elem_of_keys k (v : V) d : (k, v) ∈ d → k ∈ keys d.
Proof. intros Hin. apply list_elem_of_fmap. by exists (k, v). Qed.

Lemma dict_get_None k d : dict_get k d = None ↔ k ∉ keys d.
Proof.
  induction d as [|[k' v] d IH]; cbn [dict_get].
  - split; [intros _; apply not_elem_of_nil | done].
  - rewrite keys_cons, not_elem_of_cons. case_decide; [|by rewrite IH; tauto].
    split; [done | intros [? _]; done].
Qed.

Lemma dict_get_elem_of k v d :
  NoDup (keys d) → (k, v) ∈ d → dict_get k d = Some v.
Proof.
  induction d as [|[k' v'] d IH]; cbn [dict_get].
  - intros _ H. by apply elem_of_nil in H.
  - rewrite keys_cons. intros [Hk Hd]%NoDup_cons [Heq|Hin]%elem_of_cons.
    + simplify_eq. by rewrite decide_True.
    + rewrite decide_False; [by apply IH|].
      intros <-. by apply Hk, elem_of_keys with v.
Qed.

Lemma filter_key_ne_id k d :
  k ∉ keys d → filter (λ kv : string * V, kv.1 ≠ k) d = d.
Proof.
  induction d as [|[k2 v2] d IH]; [done|].
  rewrite keys_cons. intros [Hne Hk]%not_elem_of_cons.
  rewrite filter_cons_True by (simpl; congruence).
  f_equal. by apply IH.
Qed.

(** Popping a key of a dictionary removes exactly the entries of that
    key. *)
Lemma dict_pop_filter k d :
  NoDup (keys d) → k ∈ keys d →
  dict_pop k d = Some (filter (λ kv, kv.1 ≠ k) d).
Proof.
  induction d as [|[k' v] d IH]; cbn [dict_pop].
  - intros _ H. by apply elem_of_nil in H.
  - rewrite keys_cons. intros [Hk Hd]%NoDup_cons Hin%elem_of_cons.
    case_decide as Heq.
    + subst k'. rewrite filter_cons_False by (simpl; tauto).
      by rewrite filter_key_ne_id.
    + destruct Hin as [?|Hin]; [done|].
      rewrite IH by done. simpl.
      by rewrite filter_cons_True by (simpl; congruence).
Qed.

Lemma dict_pop_None k d : k ∉ keys d → dict_pop k d = None.
Proof.
  induction d as [|[k' v] d IH]; cbn [dict_pop]; [done|].
  rewrite keys_cons. intros [Hne Hk]%not_elem_of_cons.
  rewrite decide_False by done. by rewrite IH.
Qed.

Lemma elem_of_keys_filter (P : string * V → Prop) `{∀ kv, Decision (P kv)}
    (Q : string → Prop) k d :
  (∀ k' v, P (k', v) ↔ Q k') →
  k ∈ keys (filter P d) ↔ k ∈ keys d ∧ Q k.
Proof.
  intros HPQ. unfold keys. rewrite !list_elem_of_fmap. split.
  - intros ([k2 v2] & -> & [? ?]%list_elem_of_filter).
    split; [by exists (k2, v2)|by apply (HPQ k2 v2)].
  - intros [([k2 v2] & -> & Hin) Hns]. exists (k2, v2). split; [done|].
    apply list_elem_of_filter. split; [by apply HPQ|done].
Qed.

Lemma elem_of_keys_filter_1 (P : string * V → Prop)
    `{∀ kv, Decision (P kv)} k d :
  k ∈ keys (filter P d) → k ∈ keys d.
Proof.
  unfold keys. rewrite !list_elem_of_fmap.
  intros (kv & -> & [_ ?]%list_elem_of_filter). by exists kv.
Qed.

Lemma keys_filter_NoDup (P : string * V → Prop) `{∀ kv, Decision (P kv)} d :
  NoDup (keys d) → NoDup (keys (filter P d)).
Proof.
  induction d as [|[k v] d IH]; [done|].
  rewrite keys_cons. intros [Hk Hd]%NoDup_cons.
  rewrite filter_cons. case_decide; [|by apply IH].
  rewrite keys_cons. apply NoDup_cons. split; [|by apply IH].
  intros Hin. by apply Hk, (elem_of_keys_filter_1 P).
Qed.

Lemma filter_not_in_nil d : filter (λ kv : string * V, kv.1 ∉ []) d = d.
Proof.
  induction d as [|kv d IH]; [done|].
  rewrite filter_cons_True by apply not_elem_of_nil. by rewrite IH.
Qed.

Lemma length_filter_key_ne k d :
  NoDup (keys d) → k ∈ keys d →
  S (length (filter (λ kv : string * V, kv.1 ≠ k) d)) = length d.
Proof.
  induction d as [|[k' v] d IH]; [by intros _ ?%elem_of_nil|].
  rewrite keys_cons. intros [Hk Hd]%NoDup_cons Hin%elem_of_cons.
  destruct (decide (k' = k)) as [->|Hne].
  - rewrite filter_cons_False by (simpl; tauto).
    by rewrite filter_key_ne_id.
  - rewrite filter_cons_True by done. cbn [length].
    rewrite IH; [done..|]. by destruct Hin as [->|?].
Qed.

(** Removing the entries of [n] distinct keys leaves [n] entries fewer. *)
Lemma length_filter_not_in (ns : list string) d :
  NoDup (keys d) → NoDup ns → (∀ n, n ∈ ns → n ∈ keys d) →
  length (filter (λ kv : string * V, kv.1 ∉ ns) d) + length ns = length d.
Proof.
  revert d. induction ns as [|n ns IH]; intros d Hd Hns Hsub.
  - rewrite filter_not_in_nil. simpl. lia.
  - apply NoDup_cons in Hns as [Hn Hns].
    rewrite (list_filter_iff _ (λ kv, (kv.1 ∉ ns) ∧ kv.1 ≠ n))
      by (intros [k v]; rewrite not_elem_of_cons; simpl; tauto).
    rewrite <-(list_filter_filter (λ kv, kv.1 ∉ ns) (λ kv, kv.1 ≠ n)).
    cbn [length].
    rewrite <-(length_filter_key_ne n d) by (try done; apply Hsub; left).
    rewrite <-(IH (filter (λ kv, kv.1 ≠ n) d)); [lia| |done|].
    + by apply keys_filter_NoDup.
    + intros m Hm. apply (elem_of_keys_filter _ (λ k, k ≠ n)); [done|].
      split; [apply Hsub; by right|]. by intros ->.
Qed.
End dict_facts.

(** ** Running computations

    Every mutation of the routine lands in one cell, the output component.
    The lemmas below run each operation on a heap [<[c:=cc]> h], where [cc]
    is the current content of that cell. *)

Lemma run_bind {A B : Type} (m : M A) (f : A → M B) (h : heap) :
  (m ≫= f) h =
  match m h with
  | (inl e, h') => (inl e, h')
  | (inr a, h') => f a h'
  end.
Proof. reflexivity. Qed.

Lemma run_bind_ok {A B : Type} (m : M A) (f : A → M B) (h h' : heap) (a : A) :
  m h = (inr a, h') → (m ≫= f) h = f a h'.
Proof. intros Hm. by rewrite run_bind, Hm. Qed.

Lemma run_ret {A : Type} (a : A) (h : heap) :
  (mret a : M A) h = (inr a, h).
Proof. reflexivity. Qed.

Section run.
Variable center_of : Component.t + RouteQuad → Qc * Qc.
Variables (h : heap) (c : loc).
Hypothesis c_allocated : c < length h.

Implicit Types (cc : Component.t) (l : loc).

Lemma cell_at cc : cell c (<[c:=cc]> h) = (inr cc, <[c:=cc]> h).
Proof. unfold cell. by rewrite list_lookup_insert_eq. Qed.

Lemma cell_off cc l x :
  l ≠ c → h !! l = Some x → cell l (<[c:=cc]> h) = (inr x, <[c:=cc]> h).
Proof.
  intros Hne Hl. unfold cell. by rewrite list_lookup_insert_ne, Hl.
Qed.

Lemma update_at f cc :
  update c f (<[c:=cc]> h) = (inr (), <[c:=f cc]> h).
Proof.
  unfold update. by rewrite list_lookup_insert_eq, list_insert_insert_eq.
Qed.

Lemma add_ref_at what cc :
  add_ref c what (<[c:=cc]> h) =
  (inr (Ref c (length (Component.references cc))),
   <[c:=Component.with_references
          (λ rs, rs ++ [ComponentReference.make what (0, 0)%Qc]) cc]> h).
Proof.
  unfold add_ref.
  rewrite (run_bind_ok _ _ _ _ _ (cell_at cc)).
  by rewrite (run_bind_ok _ _ _ _ _ (update_at _ cc)).
Qed.

Lemma reference_at cc i cr :
  Component.references cc !! i = Some cr →
  reference (Ref c i) (<[c:=cc]> h) = (inr cr, <[c:=cc]> h).
Proof.
  intros Hi. unfold reference. cbn [owner index].
  rewrite (run_bind_ok _ _ _ _ _ (cell_at cc)). by rewrite Hi.
Qed.

Lemma contents_placed cc l pc :
  l ≠ c → h !! l = Some pc →
  contents (Placed l) (<[c:=cc]> h) = (inr (inl pc), <[c:=cc]> h).
Proof.
  intros Hne Hl. unfold contents.
  by rewrite (run_bind_ok _ _ _ _ _ (cell_off cc l pc Hne Hl)).
Qed.

Lemma ref_ports_at cc i l o pc :
  l ≠ c → h !! l = Some pc →
  Component.references cc !! i = Some (ComponentReference.make (Placed l) o) →
  ref_ports (Ref c i) (<[c:=cc]> h) =
  (inr (prod_map id (Port.move o) <$> Component.ports pc), <[c:=cc]> h).
Proof.
  intros Hne Hl Hi. unfold ref_ports.
  rewrite (run_bind_ok _ _ _ _ _ (reference_at cc i _ Hi)).
  cbn [ComponentReference.parent ComponentReference.origin].
  by rewrite (run_bind_ok _ _ _ _ _ (contents_placed cc l pc Hne Hl)).
Qed.

Lemma ports_getitem_at cc i l o pc k p :
  l ≠ c → h !! l = Some pc →
  Component.references cc !! i = Some (ComponentReference.make (Placed l) o) →
  dict_get k (Component.ports pc) = Some p →
  ports_getitem (Ref c i) k (<[c:=cc]> h) =
  (inr (Port.move o p), <[c:=cc]> h).
Proof.
  intros Hne Hl Hi Hk. unfold ports_getitem.
  rewrite (run_bind_ok _ _ _ _ _ (ref_ports_at cc i l o pc Hne Hl Hi)).
  unfold getitem.
  assert (dict_get k (prod_map id (Port.move o) <$> Component.ports pc)
          = Some (Port.move o p)) as ->; [|done].
  clear -Hk. induction (Component.ports pc) as [|[k' v] d IH]; [done|].
  cbn in *. case_decide; [by simplify_eq|by apply IH].
Qed.

Lemma ports_getitem_missing cc i l o pc k :
  l ≠ c → h !! l = Some pc →
  Component.references cc !! i = Some (ComponentReference.make (Placed l) o) →
  k ∉ keys (Component.ports pc) →
  ports_getitem (Ref c i) k (<[c:=cc]> h) = (inl (KeyError k), <[c:=cc]> h).
Proof.
  intros Hne Hl Hi Hk. unfold ports_getitem.
  rewrite (run_bind_ok _ _ _ _ _ (ref_ports_at cc i l o pc Hne Hl Hi)).
  unfold getitem.
  assert (dict_get k (prod_map id (Port.move o) <$> Component.ports pc)
          = None) as ->; [|done].
  apply dict_get_None. unfold keys in *.
  by rewrite <-list_fmap_compose.
Qed.

Lemma ref_center_at cc i l o pc :
  l ≠ c → h !! l = Some pc →
  Component.references cc !! i = Some (ComponentReference.make (Placed l) o) →
  ref_center center_of (Ref c i) (<[c:=cc]> h) =
  (inr ((center_of (inl pc)).1 + o.1, (center_of (inl pc)).2 + o.2)%Qc,
   <[c:=cc]> h).
Proof.
  intros Hne Hl Hi. unfold ref_center.
  rewrite (run_bind_ok _ _ _ _ _ (reference_at cc i _ Hi)).
  cbn [ComponentReference.parent ComponentReference.origin].
  by rewrite (run_bind_ok _ _ _ _ _ (contents_placed cc l pc Hne Hl)).
Qed.
End run.

Section run_ops.
Variable center_of : Component.t + RouteQuad → Qc * Qc.
Variables (h : heap) (c : loc).
Hypothesis c_allocated : c < length h.

Implicit Types (cc : Component.t) (l : loc) (ps : dict Port.t).
Implicit Types (rs : list ComponentReference.t) (inf : gmap string Qc).

Lemma lookup_last_reference rs (r : ComponentReference.t) :
  (rs ++ [r]) !! length rs = Some r.
Proof. by rewrite list_lookup_middle. Qed.

(** [r.x = v] on the last reference of the output. *)
Lemma set_x_last nm ps rs inf l pc o v :
  l ≠ c → h !! l = Some pc →
  set_x center_of (Ref c (length rs)) v
    (<[c:=Component.make nm ps (rs ++ [ComponentReference.make (Placed l) o]) inf]> h)
  = (inr (),
     <[c:=Component.make nm ps
            (rs ++ [ComponentReference.make (Placed l)
                      (v - (center_of (inl pc)).1, o.2)%Qc]) inf]> h).
Proof.
  intros Hne Hl. unfold set_x.
  erewrite run_bind_ok
    by (eapply ref_center_at; [done..|apply lookup_last_reference]).
  unfold ref_move. cbn [owner index fst snd].
  rewrite (update_at h c c_allocated). do 3 f_equal.
  unfold Component.with_references. cbn [Component.references
    Component.name Component.ports Component.info]. f_equal.
  rewrite alter_app_r_alt by lia. rewrite Nat.sub_diag.
  destruct o as [ox oy]. cbn. do 3 f_equal; f_equal; ring.
Qed.

(** [r.y = v] on the last reference of the output. *)
Lemma set_y_last nm ps rs inf l pc o v :
  l ≠ c → h !! l = Some pc →
  set_y center_of (Ref c (length rs)) v
    (<[c:=Component.make nm ps (rs ++ [ComponentReference.make (Placed l) o]) inf]> h)
  = (inr (),
     <[c:=Component.make nm ps
            (rs ++ [ComponentReference.make (Placed l)
                      (o.1, v - (center_of (inl pc)).2)%Qc]) inf]> h).
Proof.
  intros Hne Hl. unfold set_y.
  erewrite run_bind_ok
    by (eapply ref_center_at; [done..|apply lookup_last_reference]).
  unfold ref_move. cbn [owner index fst snd].
  rewrite (update_at h c c_allocated). do 3 f_equal.
  unfold Component.with_references. cbn [Component.references
    Component.name Component.ports Component.info]. f_equal.
  rewrite alter_app_r_alt by lia. rewrite Nat.sub_diag.
  destruct o as [ox oy]. cbn. do 3 f_equal; f_equal; ring.
Qed.

Lemma add_port_at nm ps rs inf port name :
  name ∉ keys ps →
  add_port c port name (<[c:=Component.make nm ps rs inf]> h)
  = (inr (),
     <[c:=Component.make nm (ps ++ [(name, Port.rename name port)]) rs inf]> h).
Proof.
  intros Hname. unfold add_port.
  rewrite (run_bind_ok _ _ _ _ _ (cell_at h c c_allocated _)).
  cbn [Component.ports]. rewrite decide_False by done.
  by rewrite (update_at h c c_allocated).
Qed.

Lemma add_port_exists nm ps rs inf port name :
  name ∈ keys ps →
  add_port c port name (<[c:=Component.make nm ps rs inf]> h)
  = (inl (ValueError "port name exists already"),
     <[c:=Component.make nm ps rs inf]> h).
Proof.
  intros Hname. unfold add_port.
  rewrite (run_bind_ok _ _ _ _ _ (cell_at h c c_allocated _)).
  cbn [Component.ports]. by rewrite decide_True by done.
Qed.

Lemma ports_pop_at nm ps rs inf name :
  NoDup (keys ps) → name ∈ keys ps →
  ports_pop c name (<[c:=Component.make nm ps rs inf]> h)
  = (inr (),
     <[c:=Component.make nm (filter (λ kv, kv.1 ≠ name) ps) rs inf]> h).
Proof.
  intros Hnd Hname. unfold ports_pop.
  rewrite (run_bind_ok _ _ _ _ _ (cell_at h c c_allocated _)).
  cbn [Component.ports]. rewrite dict_pop_filter by done.
  by rewrite (update_at h c c_allocated).
Qed.

Lemma copy_child_info_at nm ps rs inf l comp :
  l ≠ c → h !! l = Some comp →
  copy_child_info c l (<[c:=Component.make nm ps rs inf]> h)
  = (inr (),
     <[c:=Component.make nm ps rs (Component.info comp ∪ inf)]> h).
Proof.
  intros Hne Hl. unfold copy_child_info.
  rewrite (run_bind_ok _ _ _ _ _ (cell_off h c _ l comp Hne Hl)).
  by rewrite (update_at h c c_allocated).
Qed.

Lemma info_getitem_at cc l comp k v :
  l ≠ c → h !! l = Some comp → Component.info comp !! k = Some v →
  info_getitem l k (<[c:=cc]> h) = (inr v, <[c:=cc]> h).
Proof.
  intros Hne Hl Hk. unfold info_getitem.
  rewrite (run_bind_ok _ _ _ _ _ (cell_off h c _ l comp Hne Hl)).
  by rewrite Hk.
Qed.

(** Lines 50-55 when no port names are given: the values of the mapping
    returned by [select_ports], in its order. *)
Lemma selected_ports_at cc i l o pc select_ports port_names :
  l ≠ c → h !! l = Some pc →
  Component.references cc !! i = Some (ComponentReference.make (Placed l) o) →
  truthy port_names = false →
  selected_ports (Ref c i) select_ports port_names (<[c:=cc]> h)
  = (inr (values (select_ports
                    (prod_map id (Port.move o) <$> Component.ports pc))),
     <[c:=cc]> h).
Proof.
  intros Hne Hl Hi Hnames. unfold selected_ports. rewrite Hnames.
  rewrite run_bind, run_bind.
  by erewrite (ref_ports_at h c c_allocated) by done.
Qed.

Lemma ref_getitem_run cc i l o pc k :
  l ≠ c → h !! l = Some pc →
  Component.references cc !! i = Some (ComponentReference.make (Placed l) o) →
  ref_getitem (Ref c i) k (<[c:=cc]> h)
  = (match dict_get k (prod_map id (Port.move o) <$> Component.ports pc) with
     | Some p => inr p
     | None => inl (KeyError k)
     end, <[c:=cc]> h).
Proof.
  intros Hne Hl Hi. unfold ref_getitem, ports_getitem.
  rewrite (run_bind_ok _ _ _ _ _
    (ref_ports_at h c c_allocated cc i l o pc Hne Hl Hi)).
  unfold getitem. by case_match.
Qed.

(** Line 51: the list comprehension over the port names. *)
Lemma comprehension_at cc i l o pc port_names :
  l ≠ c → h !! l = Some pc →
  Component.references cc !! i = Some (ComponentReference.make (Placed l) o) →
  comprehension (ref_getitem (Ref c i)) port_names (<[c:=cc]> h)
  = (resolve (prod_map id (Port.move o) <$> Component.ports pc) port_names,
     <[c:=cc]> h).
Proof.
  intros Hne Hl Hi.
  induction port_names as [|n port_names IH]; [done|].
  cbn [comprehension resolve].
  rewrite run_bind, (ref_getitem_run cc i l o pc n Hne Hl Hi).
  destruct (dict_get n _) as [p|]; [|done].
  rewrite run_bind, IH.
  by destruct (resolve _ port_names).
Qed.
End run_ops.

(** The names given to the pad ports are pairwise distinct. *)
Lemma pad_port_name_inj (name : string) : Inj (=) (=) (pad_port_name name).
Proof.
  intros i j Heq. unfold pad_port_name in Heq.
  do 3 apply (inj (String.app _)) in Heq.
  apply (inj pretty) in Heq. lia.
Qed.

Lemma keys_exposed_ports center_of padc o s name pp start ports :
  keys (exposed_ports center_of padc o s name pp start ports)
  = (λ j, pad_port_name name (start + j)) <$> seq 0 (length ports).
Proof.
  revert start. induction ports as [|port ports IH]; intros start; [done|].
  cbn [exposed_ports length seq]. unfold exposed_port at 1.
  rewrite keys_cons, fmap_cons, IH.
  rewrite Nat.add_0_r. f_equal.
  rewrite <-(fmap_S_seq 0), <-list_fmap_compose.
  apply list_fmap_ext. intros _ j _. simpl. f_equal. lia.
Qed.

Lemma length_exposed_ports center_of padc o s name pp start ports :
  length (exposed_ports center_of padc o s name pp start ports) = length ports.
Proof.
  revert start. induction ports as [|port ports IH]; intros start; [done|].
  cbn [exposed_ports length]. by rewrite IH.
Qed.

Lemma lookup_exposed_ports center_of padc o s name pp start ports i port :
  ports !! i = Some port →
  exposed_ports center_of padc o s name pp start ports !! i
  = Some (exposed_port center_of padc o s name pp (start + i) port).
Proof.
  revert start i. induction ports as [|p ports IH]; intros start [|i] Hi;
    simplify_eq/=.
  - by rewrite Nat.add_0_r.
  - rewrite (IH (S start) i Hi). do 2 f_equal. lia.
Qed.

Lemma Port_rename_id (p : Port.t) : Port.rename (Port.name p) p = p.
Proof. by destruct p. Qed.

Lemma Port_move_0 (p : Port.t) : Port.move (0, 0)%Qc p = p.
Proof.
  destruct p. unfold Port.move. cbn. by rewrite !Qcplus_0_r.
Qed.

Lemma keys_by_name (ports : list Port.t) : keys (by_name ports) = names ports.
Proof.
  unfold keys, by_name, names. rewrite <-list_fmap_compose.
  by apply list_fmap_ext.
Qed.

Lemma filter_by_name (ns : list string) (ports : list Port.t) :
  filter (λ kv, kv.1 ∉ ns) (by_name ports)
  = by_name (filter (λ p, Port.name p ∉ ns) ports).
Proof.
  unfold by_name. induction ports as [|p ports IH]; [done|].
  rewrite fmap_cons, !filter_cons. cbn [fst].
  case_decide; by rewrite ?fmap_cons, IH.
Qed.

Lemma filter_all {A : Type} (P : A → Prop) `{∀ a, Decision (P a)}
    (l : list A) :
  (∀ a, a ∈ l → P a) → filter P l = l.
Proof.
  induction l as [|a l IH]; intros Hall; [done|].
  rewrite filter_cons_True by (apply Hall; left).
  rewrite IH; [done|]. intros b Hb. apply Hall. by right.
Qed.

(** The comprehension fails on the first name that is not a port. *)
Lemma resolve_missing (ps : dict Port.t) (port_names : list string) (n : string) :
  n ∈ port_names → n ∉ keys ps →
  ∃ k, resolve ps port_names = inl (KeyError k)
       ∧ k ∈ port_names ∧ k ∉ keys ps.
Proof.
  intros Hin Hn. induction port_names as [|m port_names IH];
    [by apply elem_of_nil in Hin|].
  cbn [resolve]. destruct (dict_get m ps) as [p|] eqn:Hm.
  - apply elem_of_cons in Hin as [->|Hin].
    { apply dict_get_None in Hn. congruence. }
    destruct (IH Hin) as (k & -> & Hk & Hk'). exists k.
    split_and!; [done|by right|done].
  - exists m. split_and!; [done|by left|by apply dict_get_None].
Qed.

Lemma resolve_present (ps : dict Port.t) (port_names : list string) :
  (∀ n, n ∈ port_names → n ∈ keys ps) →
  ∃ l, resolve ps port_names = inr l.
Proof.
  induction port_names as [|m port_names IH]; intros Hall; [by eexists|].
  cbn [resolve]. destruct (dict_get m ps) as [p|] eqn:Hm.
  - destruct IH as [l ->]; [intros n Hn; apply Hall; by right|]. by eexists.
  - apply dict_get_None in Hm. destruct Hm. apply Hall. by left.
Qed.

(** ** The loop over the selected ports *)

Section run_routine.
Variable center_of : Component.t + RouteQuad → Qc * Qc.
Variables (h : heap) (c component pad : loc).
Variables (comp padc : Component.t) (pp : Port.t).
Variables (spacing port_orientation : Qc) (layer : LayerSpec).
Hypothesis c_allocated : c < length h.
Hypothesis component_off : component ≠ c.
Hypothesis pad_off : pad ≠ c.
Hypothesis component_at : h !! component = Some comp.
Hypothesis pad_at : h !! pad = Some padc.
Hypothesis pad_port : dict_get "pad" (Component.ports padc) = Some pp.
Hypothesis pad_pin : ∀ pin,
  pin_of port_orientation = Some pin →
  is_Some (dict_get pin (Component.ports padc)).

Implicit Types (ps : dict Port.t) (rs : list ComponentReference.t).
Implicit Types (inf : gmap string Qc) (port : Port.t).

Local Ltac norm :=
  unfold Component.with_references;
  cbn [Component.references Component.name Component.ports Component.info
       fst snd].

Local Ltac run lem :=
  erewrite run_bind_ok
    by (eapply lem; first [done | apply lookup_last_reference]);
  norm.

Lemma lookup_pad_reference rs (r r' : ComponentReference.t) :
  ((rs ++ [r]) ++ [r']) !! length rs = Some r.
Proof.
  rewrite lookup_app_l by (rewrite length_app; simpl; lia).
  apply lookup_last_reference.
Qed.

(** The end of an iteration: the pad port is read and exposed. *)
Local Ltac expose :=
  erewrite run_bind_ok
    by (eapply ports_getitem_at;
        [done..|first [apply lookup_last_reference
                      |apply lookup_pad_reference]|done]);
  rewrite (run_bind_ok _ _ _ _ _
             (cell_off h c _ _ _ component_off component_at));
  rewrite (add_port_at h c c_allocated) by done;
  rewrite <-?app_assoc; reflexivity.

(** A branch of the dispatch: the two setters, the pin of the pad and the
    routing shape. *)
Local Ltac routed pin first_setter second_setter :=
  let q := fresh "q" in
  let Hq := fresh "Hq" in
  destruct (pad_pin pin eq_refl) as [q Hq]; rewrite Hq;
  rewrite run_bind;
  run first_setter; run second_setter;
  erewrite run_bind_ok
    by (eapply ports_getitem_at; [done..|apply lookup_last_reference|done]);
  rewrite run_bind, (add_ref_at h c c_allocated); cbv beta iota; norm;
  rewrite run_ret;
  expose.

(** One iteration: a pad reference, the routing shape if a branch is
    taken, and the renamed pad port. *)
Lemma place_pad_at nm ps rs inf i port :
  pad_port_name (Component.name comp) i ∉ keys ps →
  place_pad center_of c component pad spacing port_orientation layer i port
    (<[c:=Component.make nm ps rs inf]> h)
  = (inr (),
     <[c:=Component.make nm
            (ps ++ [exposed_port center_of padc port_orientation spacing
                      (Component.name comp) pp i port])
            (rs ++ pad_reference center_of pad padc port_orientation spacing port
                :: route_references center_of padc port_orientation spacing
                     layer port)
            inf]> h).
Proof.
  intros Hfresh. unfold place_pad.
  rewrite run_bind, (add_ref_at h c c_allocated). cbv beta iota. norm.
  unfold exposed_port, pad_reference, route_references, pad_origin, placement.
  unfold pin_of in pad_pin.
  repeat case_decide.
  - routed "e1" set_x_last set_y_last.
  - routed "e3" set_x_last set_y_last.
  - routed "e4" set_y_last set_x_last.
  - routed "e2" set_y_last set_x_last.
  - rewrite run_bind, run_ret. cbv beta iota. expose.
Qed.

(** The whole loop of lines 59-79. *)
Lemma place_pads_at nm ps rs inf start ports :
  (∀ j, j < length ports →
        pad_port_name (Component.name comp) (start + j) ∉ keys ps) →
  for_enumerate
    (place_pad center_of c component pad spacing port_orientation layer)
    start ports (<[c:=Component.make nm ps rs inf]> h)
  = (inr (),
     <[c:=Component.make nm
            (ps ++ exposed_ports center_of padc port_orientation spacing
                     (Component.name comp) pp start ports)
            (rs ++ placed_references center_of pad padc port_orientation
                     spacing layer ports)
            inf]> h).
Proof.
  revert ps rs start.
  induction ports as [|port ports IH]; intros ps rs start Hfresh.
  - cbn [for_enumerate exposed_ports placed_references flat_map].
    by rewrite run_ret, !app_nil_r.
  - cbn [for_enumerate exposed_ports placed_references flat_map].
    rewrite run_bind, place_pad_at; cbv beta iota.
    + rewrite IH.
      * by rewrite <-!app_assoc.
      * intros j Hj. rewrite keys_app, elem_of_app. intros [Hin|Hin].
        -- apply (Hfresh (S j)); [simpl; lia|].
           by replace (start + S j) with (S start + j) by lia.
        -- unfold exposed_port in Hin. rewrite keys_cons in Hin.
           apply list_elem_of_singleton in Hin.
           apply pad_port_name_inj in Hin. lia.
    + specialize (Hfresh 0). rewrite Nat.add_0_r in Hfresh.
      apply Hfresh. simpl. lia.
Qed.

End run_routine.

(** ** The bookkeeping of ports after the loop *)

Section run_registrar.
Variables (h : heap) (c : loc).
Hypothesis c_allocated : c < length h.

Implicit Types (ps : dict Port.t) (rs : list ComponentReference.t).
Implicit Types (inf : gmap string Qc).

(** Line 81: [c.add_ports(ref.ports)]. *)
Lemma add_ports_at nm ps rs inf (d : dict Port.t) :
  NoDup (names (values d)) →
  (∀ n, n ∈ names (values d) → n ∉ keys ps) →
  add_ports c d (<[c:=Component.make nm ps rs inf]> h)
  = (inr (), <[c:=Component.make nm (ps ++ by_name (values d)) rs inf]> h).
Proof.
  unfold add_ports, by_name, names. revert ps.
  induction (values d) as [|port ports IH]; intros ps Hnd Hfresh.
  - cbn [for_each fmap list_fmap]. by rewrite run_ret, app_nil_r.
  - cbn [for_each]. rewrite fmap_cons in Hnd, Hfresh.
    apply NoDup_cons in Hnd as [Hport Hnd].
    rewrite run_bind, (add_port_at h c c_allocated);
      [|apply Hfresh; left]. cbv beta iota.
    rewrite Port_rename_id.
    rewrite IH; [by rewrite fmap_cons, <-app_assoc|done|].
    intros n Hn. rewrite keys_app, elem_of_app. intros [Hin|Hin].
    + by apply (Hfresh n); [right|].
    + rewrite keys_cons in Hin. apply list_elem_of_singleton in Hin.
      by subst n.
Qed.

(** Lines 83-84: the selected ports are popped from the output. *)
Lemma pops_at nm ps rs inf (selected : list Port.t) :
  NoDup (keys ps) → NoDup (names selected) →
  (∀ n, n ∈ names selected → n ∈ keys ps) →
  for_each (λ port, ports_pop c (Port.name port)) selected
    (<[c:=Component.make nm ps rs inf]> h)
  = (inr (),
     <[c:=Component.make nm
            (filter (λ kv, kv.1 ∉ names selected) ps) rs inf]> h).
Proof.
  unfold names. revert ps.
  induction selected as [|port ports IH]; intros ps Hps Hnd Hsub.
  - cbn [for_each fmap list_fmap]. by rewrite run_ret, filter_not_in_nil.
  - cbn [for_each]. rewrite fmap_cons in Hnd, Hsub.
    apply NoDup_cons in Hnd as [Hport Hnd].
    rewrite run_bind, (ports_pop_at h c c_allocated);
      [|done|apply Hsub; left]. cbv beta iota.
    rewrite IH.
    + do 3 f_equal. rewrite list_filter_filter.
      apply list_filter_iff. intros [k v]. rewrite fmap_cons. simpl.
      rewrite not_elem_of_cons. tauto.
    + by apply keys_filter_NoDup.
    + done.
    + intros n Hn.
      apply (elem_of_keys_filter _ (λ k, k ≠ Port.name port)); [done|].
      split; [apply Hsub; by right|]. by intros ->.
Qed.
End run_registrar.

(** ** The routine without explicit port names *)

Section selected_run.
Variable center_of : Component.t + RouteQuad → Qc * Qc.
Variables (h : heap) (component pad : loc).
Variables (comp padc : Component.t) (pp : Port.t).
Variables (pad_port_spacing port_orientation : Qc) (layer : LayerSpec).
Variable select_ports : dict Port.t → dict Port.t.
Variable port_names : option (list string).
Hypothesis component_at : h !! component = Some comp.
Hypothesis pad_at : h !! pad = Some padc.

Let c : loc := length h.
Let h0 : heap := h ++ [Component.new].

Local Lemma c_allocated : c < length h0.
Proof. unfold c, h0. rewrite length_app. simpl. lia. Qed.

Local Lemma component_off : component ≠ c.
Proof. apply lookup_lt_Some in component_at. unfold c. lia. Qed.

Local Lemma pad_off : pad ≠ c.
Proof. apply lookup_lt_Some in pad_at. unfold c. lia. Qed.

Local Lemma component_at0 : h0 !! component = Some comp.
Proof.
  unfold h0. rewrite lookup_app_l; [done|by eapply lookup_lt_Some].
Qed.

Local Lemma pad_at0 : h0 !! pad = Some padc.
Proof. unfold h0. rewrite lookup_app_l; [done|by eapply lookup_lt_Some]. Qed.

Local Lemma h0_insert cc : <[c:=cc]> h0 = h ++ [cc].
Proof.
  unfold c, h0. rewrite insert_app_r_alt by lia. by rewrite Nat.sub_diag.
Qed.

Local Lemma h0_id : h0 = <[c:=Component.new]> h0.
Proof. by rewrite h0_insert. Qed.

(** Lines 46-49: the output is allocated and receives the reference to
    the wrapped component. *)
Lemma prologue_run {A : Type} (k : loc → loc → loc → ref → M A) :
  (c ← Component_new;
   component ← get_component component;
   pad ← get_component pad;
   r ← add_ref c (Placed component);
   k c component pad r) h
  = k c component pad (Ref c 0)
      (<[c:=Component.make (Component.name Component.new) []
              [ComponentReference.make (Placed component) (0, 0)%Qc] ∅]> h0).
Proof.
  rewrite run_bind. unfold Component_new. cbv beta iota.
  change (h ++ [Component.new]) with h0. change (length h) with c.
  rewrite h0_id at 1.
  unfold get_component.
  rewrite run_bind,
    (run_bind_ok _ _ _ _ _
       (cell_off h0 c _ _ _ component_off component_at0)), run_ret.
  cbv beta iota.
  rewrite run_bind,
    (run_bind_ok _ _ _ _ _ (cell_off h0 c _ _ _ pad_off pad_at0)), run_ret.
  cbv beta iota.
  by rewrite run_bind, (add_ref_at h0 c c_allocated).
Qed.

Lemma unmoved_ports (ps : dict Port.t) :
  prod_map id (Port.move (0, 0)%Qc) <$> ps = ps.
Proof.
  rewrite <-(list_fmap_id ps) at 2. apply list_fmap_ext.
  intros _ [k p] _. unfold prod_map. cbn. by rewrite Port_move_0.
Qed.

(** The run of the routine when no port names are given: it returns the
    fresh component, whose content is [output]. *)
Lemma selected_run (xs : Qc) :
  truthy port_names = false →
  Component.info padc !! "xsize" = Some xs →
  dict_get "pad" (Component.ports padc) = Some pp →
  (∀ pin, pin_of port_orientation = Some pin →
          is_Some (dict_get pin (Component.ports padc))) →
  let selected := values (select_ports (Component.ports comp)) in
  NoDup (names (values (Component.ports comp))) →
  NoDup (names selected) →
  (∀ n, n ∈ names selected → n ∈ names (values (Component.ports comp))) →
  collision_free comp (length selected) →
  add_electrical_pads_shortest center_of component pad pad_port_spacing
    select_ports port_names port_orientation layer h
  = (inr c,
     h ++ [output center_of component pad comp padc pp pad_port_spacing
             port_orientation layer selected]).
Proof.
  intros Hnames Hxs Hpp Hpin selected HP HS Hsub Hfree.
  unfold add_electrical_pads_shortest. rewrite prologue_run.
  pose proof c_allocated as Hc. pose proof component_off as Hco.
  pose proof pad_off as Hpo. pose proof component_at0 as Hca.
  pose proof pad_at0 as Hpa.
  (* lines 50-55 *)
  erewrite run_bind_ok
    by (eapply (selected_ports_at h0 c Hc _ 0 component (0, 0)%Qc comp);
        [done|done|reflexivity|done]).
  rewrite unmoved_ports. fold selected.
  (* line 57 *)
  erewrite run_bind_ok by (by eapply (info_getitem_at h0 c _ pad padc)).
  (* lines 59-79 *)
  rewrite run_bind.
  rewrite (place_pads_at center_of h0 c component pad comp padc pp);
    try done; [|intros j Hj; apply not_elem_of_nil].
  cbv beta iota.
  (* line 81 *)
  erewrite run_bind_ok
    by (eapply (ref_ports_at h0 c Hc _ 0 component (0, 0)%Qc comp);
        [done|done|reflexivity]).
  rewrite unmoved_ports.
  rewrite run_bind, (add_ports_at h0 c Hc); [|done|]; cbv beta iota.
  2:{ intros n Hn. rewrite app_nil_l, keys_exposed_ports.
      intros (j & -> & Hj%elem_of_seq)%list_elem_of_fmap.
      apply (Hfree j); [lia|done]. }
  (* lines 83-84 *)
  rewrite run_bind, (pops_at h0 c Hc); cbv beta iota.
  - (* lines 85-86 *)
    erewrite run_bind_ok
      by (by eapply (copy_child_info_at h0 c Hc _ _ _ _ component comp)).
    rewrite run_ret, h0_insert. unfold output, clearance. rewrite Hxs.
    do 3 f_equal. cbn [app]. f_equal.
    rewrite filter_app, filter_by_name. f_equal.
    apply filter_all. intros [k v] Hin%elem_of_keys. cbn [fst].
    rewrite keys_exposed_ports in Hin.
    apply list_elem_of_fmap in Hin as (j & -> & Hj%elem_of_seq).
    intros Hin%Hsub. apply (Hfree j); [lia|done].
  - rewrite app_nil_l, keys_app, keys_by_name. apply NoDup_app.
    split_and!; [|intros n|done].
    + rewrite keys_exposed_ports.
      apply NoDup_fmap_2_strong; [|apply NoDup_seq].
      intros i j _ _ Heq%pad_port_name_inj. lia.
    + rewrite keys_exposed_ports.
      intros (j & -> & Hj%elem_of_seq)%list_elem_of_fmap.
      apply (Hfree j). lia.
  - done.
  - intros n Hn. rewrite app_nil_l, keys_app, keys_by_name, elem_of_app.
    right. by apply Hsub.
Qed.

(** The run of the routine when port names are given: the comprehension
    of line 51 fails on a name that is not a port; otherwise line 55 looks
    up [values] on the list it built. *)
Lemma explicit_names_run :
  truthy port_names = true →
  add_electrical_pads_shortest center_of component pad pad_port_spacing
    select_ports port_names port_orientation layer h
  = (inl match resolve (Component.ports comp) (default [] port_names) with
         | inl e => e
         | inr _ => AttributeError "values"
         end,
     h ++ [Component.make (Component.name Component.new) []
             [ComponentReference.make (Placed component) (0, 0)%Qc] ∅]).
Proof.
  intros Hnames.
  unfold add_electrical_pads_shortest. rewrite prologue_run.
  pose proof c_allocated as Hc. pose proof component_off as Hco.
  pose proof component_at0 as Hca.
  unfold selected_ports. rewrite Hnames.
  rewrite run_bind, run_bind, run_bind.
  erewrite (comprehension_at h0 c Hc _ 0 component (0, 0)%Qc comp)
    by (done || reflexivity).
  rewrite unmoved_ports, h0_insert.
  by destruct (resolve (Component.ports comp) (default [] port_names)).
Qed.
End selected_run.

(** ** Computations that only read the heap *)

Lemma reads_ret {A : Type} (a : A) : reads (mret a : M A).
Proof. done. Qed.

Lemma reads_raise {A : Type} (e : exn) : reads (raise e : M A).
Proof. done. Qed.

Lemma reads_bind {A B : Type} (m : M A) (f : A → M B) :
  reads m → (∀ a, reads (f a)) → reads (m ≫= f).
Proof.
  intros Hm Hf h. rewrite run_bind. specialize (Hm h).
  destruct (m h) as [[e|a] h']; simpl in *; subst; [done|apply Hf].
Qed.

Lemma reads_cell (l : loc) : reads (cell l).
Proof. intros h. unfold cell. by destruct (h !! l). Qed.

Create HintDb reads.
#[local] Hint Resolve reads_ret reads_raise reads_cell : reads.
#[local] Hint Extern 2 (reads (_ ≫= _)) =>
  apply reads_bind; [|intros ?] : reads.
#[local] Hint Extern 3 (reads (match ?x with _ => _ end)) =>
  destruct x : reads.

Lemma reads_ref_ports (r : ref) : reads (ref_ports r).
Proof. unfold ref_ports, reference, contents. eauto 12 with reads. Qed.

Lemma reads_ports_getitem (r : ref) (k : string) : reads (ports_getitem r k).
Proof.
  unfold ports_getitem, getitem. pose proof (reads_ref_ports r).
  eauto 6 with reads.
Qed.

Lemma reads_ref_getitem (r : ref) (k : string) : reads (ref_getitem r k).
Proof. apply reads_ports_getitem. Qed.

Lemma reads_comprehension {A B : Type} (f : A → M B) (l : list A) :
  (∀ a, reads (f a)) → reads (comprehension f l).
Proof.
  intros Hf. induction l as [|a l IH]; [apply reads_ret|].
  cbn [comprehension].
  apply reads_bind; [done|intros b].
  apply reads_bind; [done|intros bs]. apply reads_ret.
Qed.

Lemma reads_run {A : Type} (m : M A) (h : heap) :
  reads m → ∃ r, m h = (r, h).
Proof.
  intros Hm. specialize (Hm h). destruct (m h) as [r h']. exists r.
  simpl in Hm. by subst.
Qed.

(** ** The routine with explicit port names *)

Section explicit_names.
Variable center_of : Component.t + RouteQuad → Qc * Qc.
Variables (h : heap) (component pad : loc).
Variables (pad_port_spacing port_orientation : Qc) (layer : LayerSpec).
Variable select_ports : dict Port.t → dict Port.t.
Variable port_names : option (list string).
Hypothesis names_given : truthy port_names = true.

(** Lines 50-55 with port names: the list comprehension runs, and if it
    completes, [values] is looked up on its list. *)
Lemma selected_ports_explicit (r : ref) (h1 : heap) :
  ∃ e, selected_ports r select_ports port_names h1 = (inl e, h1)
    ∧ ((∃ l, comprehension (ref_getitem r) (default [] port_names) h1
             = (inr l, h1))
       → e = AttributeError "values").
Proof.
  unfold selected_ports. rewrite names_given, run_bind, run_bind.
  destruct (reads_run (comprehension (ref_getitem r) (default [] port_names))
              h1) as [[e|l] Hl].
  { apply reads_comprehension, reads_ref_getitem. }
  - rewrite Hl. exists e. split; [done|]. by intros [l [=]].
  - rewrite Hl. cbv beta iota. rewrite run_ret. cbv beta iota.
    exists (AttributeError "values"). by split.
Qed.

(** With a non-empty [port_names] the routine raises, and the cell it
    allocated holds no port and at most the reference to the wrapped
    component. *)
Lemma explicit_names_raise :
  ∃ e c',
    add_electrical_pads_shortest center_of component pad pad_port_spacing
      select_ports port_names port_orientation layer h
    = (inl e, h ++ [c'])
    ∧ Component.ports c' = []
    ∧ (Component.references c' = []
       ∨ Component.references c'
         = [ComponentReference.make (Placed component) (0, 0)%Qc]).
Proof.
  unfold add_electrical_pads_shortest.
  rewrite run_bind. unfold Component_new. cbv beta iota.
  unfold get_component. rewrite run_bind, run_bind.
  destruct (reads_run (cell component) (h ++ [Component.new])
              (reads_cell _)) as [[e|x] ->].
  { exists e, Component.new. split_and!; [done..|by left]. }
  cbv beta iota. rewrite run_ret. cbv beta iota.
  rewrite run_bind, run_bind.
  destruct (reads_run (cell pad) (h ++ [Component.new])
              (reads_cell _)) as [[e|y] ->].
  { exists e, Component.new. split_and!; [done..|by left]. }
  cbv beta iota. rewrite run_ret. cbv beta iota.
  assert (length h < length (h ++ [Component.new])) as Hc
    by (rewrite length_app; simpl; lia).
  assert (∀ cc, <[length h:=cc]> (h ++ [Component.new]) = h ++ [cc])
    as Hfresh.
  { intros cc. rewrite insert_app_r_alt by lia. by rewrite Nat.sub_diag. }
  rewrite run_bind, <-(Hfresh Component.new), (add_ref_at _ _ Hc).
  cbv beta iota.
  rewrite run_bind.
  match goal with
  | |- context [selected_ports ?r _ _ ?h1] =>
      destruct (selected_ports_explicit r h1) as (e & -> & _)
  end.
  eexists e, _. split_and!; [by rewrite Hfresh|done|by right].
Qed.
End explicit_names.

(** ** The cells a computation leaves alone *)

Lemma preserves_refl (c : loc) (h : heap) : preserves c h h.
Proof. by split. Qed.

Lemma preserves_trans (c : loc) (h1 h2 h3 : heap) :
  preserves c h1 h2 → preserves c h2 h3 → preserves c h1 h3.
Proof.
  intros [Hlen12 H12] [Hlen23 H23]. split; [congruence|].
  intros l Hl. by rewrite H23, H12.
Qed.

Section frames.
Variable c : loc.

Lemma frames_reads {A : Type} (m : M A) : reads m → frames c m.
Proof. intros Hm h. rewrite Hm. apply preserves_refl. Qed.

Lemma frames_ret {A : Type} (a : A) : frames c (mret a : M A).
Proof. apply frames_reads, reads_ret. Qed.

Lemma frames_raise {A : Type} (e : exn) : frames c (raise e : M A).
Proof. apply frames_reads, reads_raise. Qed.

Lemma frames_bind {A B : Type} (m : M A) (f : A → M B) :
  frames c m → (∀ a, frames c (f a)) → frames c (m ≫= f).
Proof.
  intros Hm Hf h. rewrite run_bind. specialize (Hm h).
  destruct (m h) as [[e|a] h']; [done|].
  eapply preserves_trans; [exact Hm|apply Hf].
Qed.

Lemma frames_update (f : Component.t → Component.t) : frames c (update c f).
Proof.
  intros h. unfold update. destruct (h !! c); [|apply preserves_refl].
  split; [apply length_insert|].
  intros l Hl. by apply list_lookup_insert_ne.
Qed.

(** [add_ref] hands out a reference owned by the cell it writes. *)
Lemma frames_add_ref_bind {B : Type} (what : Cell) (f : ref → M B) :
  (∀ i, frames c (f (Ref c i))) → frames c (add_ref c what ≫= f).
Proof.
  intros Hf h. rewrite run_bind. unfold add_ref.
  rewrite run_bind. unfold cell at 1.
  destruct (h !! c) as [cc|]; [|apply preserves_refl].
  rewrite run_bind. pose proof (frames_update
    (Component.with_references
       (λ rs, rs ++ [ComponentReference.make what (0, 0)%Qc])) h) as Hupd.
  destruct (update c _ h) as [[e|[]] h']; [done|].
  rewrite run_ret. eapply preserves_trans; [exact Hupd|apply Hf].
Qed.

Lemma frames_for_each {A : Type} (body : A → M unit) (l : list A) :
  (∀ a, frames c (body a)) → frames c (for_each body l).
Proof.
  intros Hbody. induction l as [|a l IH]; [apply frames_ret|].
  cbn [for_each]. by apply frames_bind.
Qed.

Lemma frames_for_enumerate {A : Type} (body : nat → A → M unit)
    (start : nat) (l : list A) :
  (∀ i a, frames c (body i a)) → frames c (for_enumerate body start l).
Proof.
  intros Hbody. revert start.
  induction l as [|a l IH]; intros start; [apply frames_ret|].
  cbn [for_enumerate]. by apply frames_bind.
Qed.

Lemma reads_ref_center center_of (r : ref) : reads (ref_center center_of r).
Proof.
  unfold ref_center, reference, contents. eauto 12 with reads.
Qed.

Lemma reads_info_getitem (l : loc) (k : string) : reads (info_getitem l k).
Proof.
  unfold info_getitem. eauto 6 with reads.
Qed.

Lemma reads_selected_ports (r : ref) select_ports port_names :
  reads (selected_ports r select_ports port_names).
Proof.
  unfold selected_ports, py_values.
  apply reads_bind; [|intros [l|d]; [apply reads_raise|apply reads_ret]].
  case_match.
  - apply reads_bind; [|intros ?; apply reads_ret].
    apply reads_comprehension, reads_ref_getitem.
  - apply reads_bind; [apply reads_ref_ports|intros ?; apply reads_ret].
Qed.

Local Ltac frames :=
  repeat first
    [ apply frames_ret | apply frames_raise | apply frames_update
    | apply frames_reads;
      first [ apply reads_cell | apply reads_ref_ports
            | apply reads_ports_getitem | apply reads_ref_getitem
            | apply reads_ref_center
            | apply reads_info_getitem | apply reads_selected_ports ]
    | apply frames_bind; [|intros ?]
    | case_match ].

Lemma frames_set_x center_of (i : nat) (v : Qc) :
  frames c (set_x center_of (Ref c i) v).
Proof. unfold set_x, ref_move. cbn [owner index]. frames. Qed.

Lemma frames_set_y center_of (i : nat) (v : Qc) :
  frames c (set_y center_of (Ref c i) v).
Proof. unfold set_y, ref_move. cbn [owner index]. frames. Qed.

Lemma frames_add_port (port : Port.t) (name : string) :
  frames c (add_port c port name).
Proof. unfold add_port. frames. Qed.

Lemma frames_add_ports (ports : dict Port.t) : frames c (add_ports c ports).
Proof.
  unfold add_ports. apply frames_for_each. intros port.
  apply frames_add_port.
Qed.

Lemma frames_ports_pop (name : string) : frames c (ports_pop c name).
Proof. unfold ports_pop. frames. Qed.

Lemma frames_copy_child_info (component : loc) :
  frames c (copy_child_info c component).
Proof. unfold copy_child_info. frames. Qed.

Local Ltac routed first_setter second_setter :=
  apply frames_bind; [apply first_setter|intros _];
  apply frames_bind; [apply second_setter|intros _];
  apply frames_bind; [apply frames_reads, reads_ports_getitem|intros ?];
  apply frames_add_ref_bind; intros ?; apply frames_ret.

Lemma frames_place_pad center_of component pad spacing o layer i port :
  frames c (place_pad center_of c component pad spacing o layer i port).
Proof.
  unfold place_pad. apply frames_add_ref_bind. intros j.
  apply frames_bind; [|intros []].
  - repeat case_decide; try apply frames_ret.
    + routed frames_set_x frames_set_y.
    + routed frames_set_x frames_set_y.
    + routed frames_set_y frames_set_x.
    + routed frames_set_y frames_set_x.
  - apply frames_bind; [apply frames_reads, reads_ports_getitem|intros pp].
    apply frames_bind; [apply frames_reads, reads_cell|intros comp].
    apply frames_add_port.
Qed.

(** Lines 47-86, after the allocation of the output at [c]. *)
Lemma frames_body center_of component pad pad_port_spacing select_ports
    port_names port_orientation layer :
  frames c
    (component ← get_component component;
     pad ← get_component pad;
     r ← add_ref c (Placed component);
     ports ← selected_ports r select_ports port_names;
     xsize ← info_getitem pad "xsize";
     let pad_port_spacing := (pad_port_spacing + xsize / Qc_of_Z 2)%Qc in
     for_enumerate
       (place_pad center_of c component pad pad_port_spacing port_orientation
          layer)
       0 ports;;
     rp ← ref_ports r;
     add_ports c rp;;
     for_each (λ port, ports_pop c (Port.name port)) ports;;
     copy_child_info c component;;
     mret c).
Proof.
  unfold get_component.
  apply frames_bind; [frames|intros component'].
  apply frames_bind; [frames|intros pad'].
  apply frames_add_ref_bind. intros i.
  apply frames_bind; [frames|intros ports].
  apply frames_bind; [frames|intros xsize]. cbv zeta.
  apply frames_bind;
    [apply frames_for_enumerate; intros; apply frames_place_pad|intros _].
  apply frames_bind; [frames|intros rp].
  apply frames_bind; [apply frames_add_ports|intros _].
  apply frames_bind;
    [apply frames_for_each; intros; apply frames_ports_pop|intros _].
  apply frames_bind; [apply frames_copy_child_info|intros _].
  apply frames_ret.
Qed.
End frames.

(** The routine allocates one cell, the output, and changes no other. *)
Lemma routine_frame center_of component pad pad_port_spacing select_ports
    port_names port_orientation layer (h : heap) :
  let h' := (add_electrical_pads_shortest center_of component pad
               pad_port_spacing select_ports port_names port_orientation
               layer h).2 in
  length h' = S (length h) ∧ ∀ l, l < length h → h' !! l = h !! l.
Proof.
  intros h'. subst h'. unfold add_electrical_pads_shortest.
  rewrite run_bind. unfold Component_new. cbv beta iota.
  destruct (frames_body (length h) center_of component pad pad_port_spacing
              select_ports port_names port_orientation layer
              (h ++ [Component.new])) as [Hlen Hother].
  split.
  - etransitivity; [exact Hlen|]. rewrite length_app. simpl. lia.
  - intros l Hl. etransitivity; [apply Hother; lia|]. by apply lookup_app_l.
Qed.

(** ** Selections *)

Lemma names_inj_on (ports : list Port.t) (p q : Port.t) :
  NoDup (names ports) → p ∈ ports → q ∈ ports →
  Port.name p = Port.name q → p = q.
Proof.
  unfold names. induction ports as [|a ports IH]; [by intros _ ?%elem_of_nil|].
  rewrite fmap_cons.
  intros [Ha Hnd]%NoDup_cons [->|Hp]%elem_of_cons [->|Hq]%elem_of_cons Heq.
  - done.
  - destruct Ha. rewrite Heq. by apply list_elem_of_fmap_2.
  - destruct Ha. rewrite <-Heq. by apply list_elem_of_fmap_2.
  - by apply IH.
Qed.

Section selection.
Variables (comp : Component.t) (selected : list Port.t).
Hypothesis Hsel : selection_of comp selected.

Lemma selection_names_NoDup : NoDup (names selected).
Proof.
  destruct Hsel as (HP & HS & Hsub). unfold names.
  apply NoDup_fmap_2_strong; [|done].
  intros p q Hp Hq. apply (names_inj_on _ _ _ HP); by apply Hsub.
Qed.

Lemma selection_names_sub n :
  n ∈ names selected → n ∈ names (values (Component.ports comp)).
Proof.
  destruct Hsel as (HP & HS & Hsub). unfold names.
  intros (p & -> & Hp)%list_elem_of_fmap.
  by apply list_elem_of_fmap_2, Hsub.
Qed.

(** A port of the component is selected exactly when its name is the
    name of a selected port. *)
Lemma selection_by_name p :
  p ∈ values (Component.ports comp) →
  Port.name p ∈ names selected ↔ p ∈ selected.
Proof.
  destruct Hsel as (HP & HS & Hsub). intros Hp. split.
  - intros (q & Heq & Hq)%list_elem_of_fmap.
    by rewrite (names_inj_on _ p q HP Hp (Hsub q Hq) Heq).
  - apply list_elem_of_fmap_2.
Qed.

Lemma unselected_by_name :
  filter (λ p, Port.name p ∉ names selected) (values (Component.ports comp))
  = filter (λ p, p ∉ selected) (values (Component.ports comp)).
Proof.
  pose proof selection_by_name as Hiff.
  induction (values (Component.ports comp)) as [|p l IH]; [done|].
  rewrite !filter_cons.
  assert (Port.name p ∈ names selected ↔ p ∈ selected) as Hp
    by (apply Hiff; left).
  rewrite IH by (intros q Hq; apply Hiff; by right).
  repeat case_decide; tauto.
Qed.

(** The unselected ports and the selected ones make up the ports of the
    component. *)
Lemma length_unselected :
  length (filter (λ p, p ∉ selected) (values (Component.ports comp)))
  + length selected
  = length (Component.ports comp).
Proof.
  transitivity
    (length (filter (λ kv, kv.1 ∉ names selected)
                    (by_name (values (Component.ports comp))))
     + length (names selected)).
  { rewrite filter_by_name, unselected_by_name.
    unfold by_name, names. by rewrite !length_fmap. }
  rewrite length_filter_not_in.
  - unfold by_name, values. by rewrite !length_fmap.
  - rewrite keys_by_name. by destruct Hsel.
  - apply selection_names_NoDup.
  - intros n Hn. rewrite keys_by_name. by apply selection_names_sub.
Qed.
End selection.

(** ** The routine returns *)

(** The default selector keeps a part of the ports it is given: its result
    is a selection of the component's ports. *)
Lemma select_ports_electrical_selection (comp : Component.t) :
  NoDup (names (values (Component.ports comp))) →
  selection_of comp (values (select_ports_electrical (Component.ports comp))).
Proof.
  intros HP. unfold select_ports_electrical. split_and!; [done| |].
  - apply (NoDup_fmap_1 Port.name). fold (names (values (Component.ports comp))) in HP.
    revert HP. unfold names, values.
    induction (Component.ports comp) as [|[k p] d IH]; [done|].
    rewrite !fmap_cons. intros [Hp Hd]%NoDup_cons.
    rewrite filter_cons. case_decide; [|by apply IH].
    rewrite !fmap_cons. apply NoDup_cons. split; [|by apply IH].
    intros Hin. apply Hp. clear -Hin.
    apply list_elem_of_fmap in Hin as (q & -> & Hq).
    apply list_elem_of_fmap in Hq as (kv & -> & [_ Hkv]%list_elem_of_filter).
    by apply list_elem_of_fmap_2, list_elem_of_fmap_2.
  - intros port (kv & -> & [_ Hkv]%list_elem_of_filter)%list_elem_of_fmap.
    by apply list_elem_of_fmap_2.
Qed.

Section returns.
Variable center_of : Component.t + RouteQuad → Qc * Qc.
Variables (h : heap) (component pad : loc) (comp padc : Component.t).
Variables (pad_port_spacing port_orientation : Qc) (layer : LayerSpec).
Variable select_ports : dict Port.t → dict Port.t.
Variable port_names : option (list string).

(** On well-formed arguments without port names, the routine returns the
    fresh component [output]. *)
Lemma routine_returns :
  h !! component = Some comp → h !! pad = Some padc →
  truthy port_names = false →
  pad_ready padc port_orientation →
  let selected := values (select_ports (Component.ports comp)) in
  selection_of comp selected →
  collision_free comp (length selected) →
  ∃ pp, dict_get "pad" (Component.ports padc) = Some pp
    ∧ add_electrical_pads_shortest center_of component pad pad_port_spacing
        select_ports port_names port_orientation layer h
      = (inr (length h),
         h ++ [output center_of component pad comp padc pp pad_port_spacing
                 port_orientation layer selected]).
Proof.
  intros Hcomp Hpad Hnames ([xs Hxs] & [pp Hpp] & Hpin) selected Hsel Hfree.
  exists pp. split; [done|].
  apply (selected_run center_of h component pad comp padc pp
           pad_port_spacing port_orientation layer select_ports port_names
           Hcomp Hpad xs); try done.
  - by destruct Hsel.
  - by apply (selection_names_NoDup comp).
  - by apply selection_names_sub.
Qed.
End returns.

(** ** Facts about the scenario *)

Lemma pad_of_size_ready (xsize ysize : Z) (port_orientation : Qc) :
  pad_ready (pad_of_size xsize ysize) port_orientation.
Proof.
  split_and!.
  - exists (Qc_of_Z xsize). unfold pad_of_size. cbn [Component.info].
    by rewrite lookup_insert_eq.
  - by eexists.
  - intros pin. unfold pin_of.
    repeat case_decide; intros [= <-]; by eexists.
Qed.

Lemma wire_selection :
  selection_of wire (values (select_ports_electrical (Component.ports wire))).
Proof.
  apply select_ports_electrical_selection.
  refine (bool_decide_unpack _ _). by vm_compute.
Qed.

Lemma wire_collision_free : collision_free wire 2.
Proof.
  intros [|[|j]] Hj; [..|lia]; refine (bool_decide_unpack _ _); by vm_compute.
Qed.

(** The hypothesis [collision_free] is needed: a component that already has
    a port under one of the names given to the pad ports makes line 81
    fail. *)
Example collision_raises :
  (add_electrical_pads_shortest centred 0 1 (Qc_of_Z 50)
     select_ports_electrical None (Qc_of_Z 0) "M3"
     [Component.make "wire"
        [("e1", electrical_port "e1" 0 0 180);
         ("elec-wire-1", electrical_port "elec-wire-1" 200 0 0)] [] ∅;
      pad_of_size 20 20]).1
  = inl (ValueError "port name exists already").
Proof. by vm_compute. Qed.

(** ** Facts about the output *)

Lemma dict_get_app_l {V : Type} (k : string) (v : V) (d1 d2 : dict V) :
  dict_get k d1 = Some v → dict_get k (d1 ++ d2) = Some v.
Proof.
  induction d1 as [|[k' v'] d1 IH]; [done|].
  cbn [dict_get app]. case_decide; [done|apply IH].
Qed.

Lemma exposed_ports_NoDup center_of padc o s name pp start ports :
  NoDup (keys (exposed_ports center_of padc o s name pp start ports)).
Proof.
  rewrite keys_exposed_ports. apply NoDup_fmap_2_strong; [|apply NoDup_seq].
  intros i j _ _ Heq%pad_port_name_inj. lia.
Qed.

(** The pad port of the [i]-th selected port is found under its name. *)
Lemma dict_get_exposed center_of padc o s name pp ports rest i port :
  ports !! i = Some port →
  dict_get (pad_port_name name i)
    (exposed_ports center_of padc o s name pp 0 ports ++ rest)
  = Some (exposed_port center_of padc o s name pp i port).2.
Proof.
  intros Hi. apply dict_get_app_l, dict_get_elem_of.
  - apply exposed_ports_NoDup.
  - apply (list_elem_of_lookup_2 _ i).
    by rewrite (lookup_exposed_ports _ _ _ _ _ _ _ _ _ _ Hi).
Qed.

(** The loop adds one reference to the pad per port. *)
Lemma placed_pad_references center_of pad padc o s layer ports :
  length (filter (λ r, ComponentReference.parent r = Placed pad)
            (placed_references center_of pad padc o s layer ports))
  = length ports.
Proof.
  unfold placed_references.
  induction ports as [|port ports IH]; [done|].
  cbn [flat_map length]. rewrite filter_app, length_app, IH.
  rewrite filter_cons_True by done. cbn [length]. f_equal.
  unfold route_references.
  destruct (placement o s port) as [[[? ?] pin]|]; [|done].
  by destruct (dict_get pin (Component.ports padc)).
Qed.

(** Outside the four orientations the loop adds a pad reference at the
    origin per port, and nothing else. *)
Lemma placed_references_skipped center_of pad padc o s layer ports :
  pin_of o = None →
  placed_references center_of pad padc o s layer ports
  = (λ _, ComponentReference.make (Placed pad) (0, 0)%Qc) <$> ports.
Proof.
  intros Ho. unfold placed_references.
  assert (∀ port, placement o s port = None) as Hnone.
  { intros port. unfold placement. unfold pin_of in Ho.
    by repeat case_decide. }
  induction ports as [|port ports IH]; [done|].
  cbn [flat_map]. rewrite fmap_cons, <-IH.
  unfold pad_reference, route_references, pad_origin. by rewrite Hnone.
Qed.

(** The centre given to the pad is the target of the branch taken. *)
Lemma pad_center_placement center_of padc o s port tx ty pin :
  placement o s port = Some (tx, ty, pin) →
  pad_center center_of padc o s port = (tx, ty).
Proof.
  intros Hpl. unfold pad_center, pad_origin. rewrite Hpl. cbn [fst snd].
  f_equal; ring.
Qed.

(** The centre of the pad in each branch: the clearance added on line 57
    is half of [xsize] in all four of them. *)
Lemma pad_center_by_orientation center_of padc o d xsize port :
  Component.info padc !! "xsize" = Some xsize →
  is_Some (pin_of o) →
  Some (pad_center center_of padc o (clearance d padc) port)
  = center_at_clearance o d (xsize / Qc_of_Z 2) port.
Proof.
  intros Hxs [pin Hpin]. unfold clearance. rewrite Hxs.
  change (default (Qc_of_Z 0) (Some xsize)) with xsize.
  unfold center_at_clearance, pad_center, pad_origin, placement.
  unfold pin_of in Hpin.
  repeat case_decide; try done; cbn [fst snd]; do 2 f_equal; ring.
Qed.

Lemma no_routing_shapes (pad : loc) (o : Qc * Qc) (ports : list Port.t) :
  filter (λ r, is_routed r = true)
    ((λ _, ComponentReference.make (Placed pad) o) <$> ports) = [].
Proof.
  induction ports as [|p l IH]; [done|].
  rewrite fmap_cons, filter_cons_False; [done|by cbn].
Qed.

Lemma pad_reference_placed center_of pad padc o s layer ports port :
  port ∈ ports →
  pad_reference center_of pad padc o s port
  ∈ placed_references center_of pad padc o s layer ports.
Proof.
  intros Hport. unfold placed_references.
  apply list_elem_of_In, in_flat_map. exists port.
  split; [by apply list_elem_of_In|]. by left.
Qed.

(** * The claims *)

(** C1 (port-set completeness). For a component with ports [P] and a
    selection [S] of its ports processed by the routine, the returned
    component's ports are one new pad port per member of [S], followed by
    the ports of [P] that are not in [S]; the output has as many ports as
    the component. *)
Theorem C1_port_set_completeness
    (center_of : Component.t + RouteQuad → Qc * Qc) (h : heap)
    (component pad : loc) (comp padc : Component.t)
    (pad_port_spacing port_orientation : Qc) (layer : LayerSpec)
    (select_ports : dict Port.t → dict Port.t)
    (port_names : option (list string)) :
  h !! component = Some comp → h !! pad = Some padc →
  truthy port_names = false →
  pad_ready padc port_orientation →
  let selected := values (select_ports (Component.ports comp)) in
  selection_of comp selected →
  collision_free comp (length selected) →
  ∃ out pp new_ports,
    dict_get "pad" (Component.ports padc) = Some pp
    ∧ add_electrical_pads_shortest center_of component pad pad_port_spacing
        select_ports port_names port_orientation layer h
      = (inr (length h), h ++ [out])
    ∧ new_ports
      = exposed_ports center_of padc port_orientation
          (clearance pad_port_spacing padc) (Component.name comp) pp 0 selected
    ∧ Component.ports out
      = new_ports
        ++ by_name (filter (λ p, p ∉ selected) (values (Component.ports comp)))
    ∧ length new_ports = length selected
    ∧ length (Component.ports out) = length (Component.ports comp).
Proof.
  intros Hcomp Hpad Hnames Hready selected Hsel Hfree.
  destruct (routine_returns center_of h component pad comp padc
              pad_port_spacing port_orientation layer select_ports port_names
              Hcomp Hpad Hnames Hready Hsel Hfree) as (pp & Hpp & Hrun).
  eexists _, pp, _. split_and!; [done|exact Hrun|reflexivity|..].
  - cbn [output Component.ports]. by rewrite (unselected_by_name comp).
  - apply length_exposed_ports.
  - cbn [output Component.ports].
    rewrite length_app, length_exposed_ports, (unselected_by_name comp) by done.
    unfold by_name. rewrite length_fmap.
    pose proof (length_unselected comp selected Hsel) as Hlen.
    unfold selected in Hlen. lia.
Qed.

Lemma C1_port_set_completeness_witness :
  ∃ out pp new_ports,
    dict_get "pad" (Component.ports (pad_of_size 20 20)) = Some pp
    ∧ add_electrical_pads_shortest centred 0 1 (Qc_of_Z 50)
        select_ports_electrical None (Qc_of_Z 180) "M3" scenario
      = (inr 2, scenario ++ [out])
    ∧ new_ports
      = exposed_ports centred (pad_of_size 20 20) (Qc_of_Z 180)
          (clearance (Qc_of_Z 50) (pad_of_size 20 20)) "wire" pp 0
          (values (select_ports_electrical (Component.ports wire)))
    ∧ Component.ports out
      = new_ports
        ++ by_name
             (filter
                (λ p, p ∉ values (select_ports_electrical (Component.ports wire)))
                (values (Component.ports wire)))
    ∧ length new_ports
      = length (values (select_ports_electrical (Component.ports wire)))
    ∧ length (Component.ports out) = length (Component.ports wire).
Proof.
  apply (C1_port_set_completeness centred scenario 0 1 wire (pad_of_size 20 20)
           (Qc_of_Z 50) (Qc_of_Z 180) "M3" select_ports_electrical None).
  - reflexivity.
  - reflexivity.
  - reflexivity.
  - apply pad_of_size_ready.
  - apply wire_selection.
  - apply wire_collision_free.
Defined.

(** C2 does not hold on the code for a vertical connection to a pad that
    is not square. Line 57 adds half of the pad's [xsize] whatever the
    orientation, so for [port_orientation = 90] and a pad of 100 by 60 the
    pad placed for the port at (0, 0) with spacing 50 gets its centre at
    (0, 100), whereas the spacing plus half of the pad's extent along the
    axis of connection (60 / 2) gives (0, 80). *)
Theorem C2_vertical_clearance_uses_xsize :
  let padc := pad_of_size 100 60 in
  let port := electrical_port "e1" 0 0 180 in
  ∃ out center half claimed,
    add_electrical_pads_shortest centred 0 1 (Qc_of_Z 50)
      select_ports_electrical None (Qc_of_Z 90) "M3" [wire; padc]
    = (inr 2, [wire; padc] ++ [out])
    ∧ ComponentReference.parent <$> Component.references out !! 1
      = Some (Placed 1)
    ∧ ref_center centred (Ref 2 1) ([wire; padc] ++ [out])
      = (inr center, [wire; padc] ++ [out])
    ∧ fractions center = (0, 100)%Q
    ∧ extent_along_axis padc (Qc_of_Z 90) = Some (Qc_of_Z 2 * half)%Qc
    ∧ center_at_clearance (Qc_of_Z 90) (Qc_of_Z 50) half port = Some claimed
    ∧ fractions claimed = (0, 80)%Q
    ∧ fractions center ≠ fractions claimed.
Proof.
  cbv zeta. eexists _, _, (Qc_of_Z 30), _.
  split_and!.
  - vm_compute. reflexivity.
  - reflexivity.
  - vm_compute. reflexivity.
  - by vm_compute.
  - unfold extent_along_axis.
    rewrite !decide_False, decide_True by (by vm_compute).
    unfold pad_of_size. cbn [Component.info].
    rewrite lookup_insert_ne, lookup_insert_eq by done.
    f_equal. apply Qc_is_canon. by vm_compute.
  - vm_compute. reflexivity.
  - by vm_compute.
  - by vm_compute.
Qed.

(** What holds in place of C2: in each of the four branches the pad of every
    selected port is a reference of the output whose centre is displaced from
    the port by the spacing plus half of the pad's [xsize], along x for the
    orientations 0 and 180 and along y for 90 and 270. *)
Lemma pads_placed_by_xsize
    (center_of : Component.t + RouteQuad → Qc * Qc) (h : heap)
    (component pad : loc) (comp padc : Component.t)
    (pad_port_spacing port_orientation xsize : Qc) (layer : LayerSpec)
    (select_ports : dict Port.t → dict Port.t)
    (port_names : option (list string)) :
  h !! component = Some comp → h !! pad = Some padc →
  truthy port_names = false →
  pad_ready padc port_orientation →
  Component.info padc !! "xsize" = Some xsize →
  is_Some (pin_of port_orientation) →
  let selected := values (select_ports (Component.ports comp)) in
  selection_of comp selected →
  collision_free comp (length selected) →
  ∃ out,
    add_electrical_pads_shortest center_of component pad pad_port_spacing
      select_ports port_names port_orientation layer h
    = (inr (length h), h ++ [out])
    ∧ ∀ port, port ∈ selected →
        ∃ p, p ∈ Component.references out
             ∧ ComponentReference.parent p = Placed pad
             ∧ Some ((center_of (inl padc)).1 + (ComponentReference.origin p).1,
                     (center_of (inl padc)).2 + (ComponentReference.origin p).2)%Qc
               = center_at_clearance port_orientation pad_port_spacing
                   (xsize / Qc_of_Z 2) port.
Proof.
  intros Hcomp Hpad Hnames Hready Hxs Hpin. cbv zeta. intros Hsel Hfree.
  destruct (routine_returns center_of h component pad comp padc
              pad_port_spacing port_orientation layer select_ports port_names
              Hcomp Hpad Hnames Hready Hsel Hfree) as (pp & Hpp & Hrun).
  eexists. split; [exact Hrun|].
  intros port Hport.
  exists (pad_reference center_of pad padc port_orientation
            (clearance pad_port_spacing padc) port).
  split_and!.
  - cbn [output Component.references]. right.
    by apply pad_reference_placed.
  - done.
  - by apply (pad_center_by_orientation center_of padc port_orientation
                pad_port_spacing xsize port).
Qed.

(** C3, as stated, fails: with an orientation outside the four, a pad is
    still emitted for every selected port. On the scenario with
    [port_orientation = 45] the routine returns a component with two
    references to the pad. *)
Lemma C3_counterexample :
  ¬ (∀ out h',
       add_electrical_pads_shortest centred 0 1 (Qc_of_Z 50)
         select_ports_electrical None (Qc_of_Z 45) "M3" scenario
       = (inr out, h') →
       ∀ c, h' !! out = Some c → pad_references 1 c = []).
Proof.
  intros Hclaim.
  destruct (add_electrical_pads_shortest centred 0 1 (Qc_of_Z 50)
              select_ports_electrical None (Qc_of_Z 45) "M3" scenario)
    as [[e|out] h'] eqn:Hrun; vm_compute in Hrun; [done|].
  injection Hrun as <- <-.
  specialize (Hclaim _ _ eq_refl _ eq_refl). by vm_compute in Hclaim.
Qed.

(** C3, amended. For an orientation outside the four, the routine raises no
    error and skips placement and routing for every selected port: no
    routing shape is emitted and each pad is left at its default position.
    The loop still runs: it emits one pad reference per selected port and
    exposes its pad port. *)
Theorem C3_unsupported_orientation
    (center_of : Component.t + RouteQuad → Qc * Qc) (h : heap)
    (component pad : loc) (comp padc : Component.t)
    (pad_port_spacing port_orientation : Qc) (layer : LayerSpec)
    (select_ports : dict Port.t → dict Port.t)
    (port_names : option (list string)) :
  port_orientation ≠ Qc_of_Z 0 → port_orientation ≠ Qc_of_Z 180 →
  port_orientation ≠ Qc_of_Z 90 → port_orientation ≠ Qc_of_Z 270 →
  h !! component = Some comp → h !! pad = Some padc →
  truthy port_names = false →
  is_Some (Component.info padc !! "xsize") →
  is_Some (dict_get "pad" (Component.ports padc)) →
  let selected := values (select_ports (Component.ports comp)) in
  selection_of comp selected →
  collision_free comp (length selected) →
  ∃ out pp,
    dict_get "pad" (Component.ports padc) = Some pp
    ∧ add_electrical_pads_shortest center_of component pad pad_port_spacing
        select_ports port_names port_orientation layer h
      = (inr (length h), h ++ [out])
    ∧ Component.references out
      = ComponentReference.make (Placed component) (0, 0)%Qc
        :: ((λ _, ComponentReference.make (Placed pad) (0, 0)%Qc) <$> selected)
    ∧ routing_shapes out = []
    ∧ ∀ i port, selected !! i = Some port →
        Component.ports out !! i
        = Some (pad_port_name (Component.name comp) i,
                Port.rename (pad_port_name (Component.name comp) i) pp).
Proof.
  intros H0 H180 H90 H270 Hcomp Hpad Hnames Hxs Hpadport.
  cbv zeta. intros Hsel Hfree.
  assert (pin_of port_orientation = None) as Hpin.
  { unfold pin_of. by rewrite !decide_False by done. }
  assert (pad_ready padc port_orientation) as Hready.
  { split_and!; [done..|]. intros pin. by rewrite Hpin. }
  destruct (routine_returns center_of h component pad comp padc
              pad_port_spacing port_orientation layer select_ports port_names
              Hcomp Hpad Hnames Hready Hsel Hfree) as (pp & Hpp & Hrun).
  eexists _, pp. split_and!; [done|exact Hrun|..].
  - cbn [output Component.references].
    by rewrite placed_references_skipped.
  - unfold routing_shapes. cbn [output Component.references].
    rewrite placed_references_skipped by done.
    rewrite filter_cons_False by (by cbn). apply no_routing_shapes.
  - intros i port Hi. cbn [output Component.ports].
    rewrite lookup_app_l
      by (rewrite length_exposed_ports; by eapply lookup_lt_Some).
    rewrite (lookup_exposed_ports _ _ _ _ _ _ _ _ _ _ Hi).
    unfold exposed_port, pad_origin, placement.
    rewrite !decide_False by done. by rewrite Port_move_0.
Qed.

Lemma C3_unsupported_orientation_witness :
  ∃ out pp,
    dict_get "pad" (Component.ports (pad_of_size 20 20)) = Some pp
    ∧ add_electrical_pads_shortest centred 0 1 (Qc_of_Z 50)
        select_ports_electrical None (Qc_of_Z 45) "M3" scenario
      = (inr 2, scenario ++ [out])
    ∧ Component.references out
      = ComponentReference.make (Placed 0) (0, 0)%Qc
        :: ((λ _, ComponentReference.make (Placed 1) (0, 0)%Qc)
              <$> values (select_ports_electrical (Component.ports wire)))
    ∧ routing_shapes out = []
    ∧ ∀ i port,
        values (select_ports_electrical (Component.ports wire)) !! i
        = Some port →
        Component.ports out !! i
        = Some (pad_port_name "wire" i, Port.rename (pad_port_name "wire" i) pp).
Proof.
  apply (C3_unsupported_orientation centred scenario 0 1 wire
           (pad_of_size 20 20) (Qc_of_Z 50) (Qc_of_Z 45) "M3"
           select_ports_electrical None).
  - by vm_compute.
  - by vm_compute.
  - by vm_compute.
  - by vm_compute.
  - reflexivity.
  - reflexivity.
  - reflexivity.
  - by eexists.
  - by eexists.
  - apply wire_selection.
  - apply wire_collision_free.
Defined.

(** C4 (precedence of the port names). A non-empty [port_names] takes
    precedence: whatever selector the routine is given, its outcome is that
    of looking up the names, in order, among the ports of the component
    (line 51), and the selector does not appear in it. Otherwise
    ([port_names] absent or empty) the selector is applied to the full set
    of ports of the component, and the values of the mapping it returns are
    the ports processed, in the order of the mapping: the routine places,
    after the reference to the component, the pad and the routing shape of
    the first value, then those of the second, and so on, and the [i]-th
    port of the output is the pad port exposed for the [i]-th value. *)
Theorem C4_port_names_take_precedence
    (center_of : Component.t + RouteQuad → Qc * Qc) (h : heap)
    (component pad : loc) (comp padc : Component.t)
    (pad_port_spacing port_orientation : Qc)
    (layer : LayerSpec) (port_names : option (list string)) :
  h !! component = Some comp → h !! pad = Some padc →
  (truthy port_names = true →
   ∀ select_ports : dict Port.t → dict Port.t,
     add_electrical_pads_shortest center_of component pad pad_port_spacing
       select_ports port_names port_orientation layer h
     = (inl match resolve (Component.ports comp) (default [] port_names) with
            | inl e => e
            | inr _ => AttributeError "values"
            end,
        h ++ [Component.make (Component.name Component.new) []
                [ComponentReference.make (Placed component) (0, 0)%Qc] ∅]))
  ∧ (truthy port_names = false →
     ∀ select_ports : dict Port.t → dict Port.t,
       let selected := values (select_ports (Component.ports comp)) in
       pad_ready padc port_orientation →
       selection_of comp selected →
       collision_free comp (length selected) →
       ∃ out pp,
         dict_get "pad" (Component.ports padc) = Some pp
         ∧ add_electrical_pads_shortest center_of component pad
             pad_port_spacing select_ports port_names port_orientation
             layer h
           = (inr (length h), h ++ [out])
         ∧ Component.references out
           = ComponentReference.make (Placed component) (0, 0)%Qc
             :: flat_map
                  (λ port,
                     pad_reference center_of pad padc port_orientation
                       (clearance pad_port_spacing padc) port
                     :: route_references center_of padc port_orientation
                          (clearance pad_port_spacing padc) layer port)
                  selected
         ∧ ∀ i port,
             selected !! i = Some port →
             Component.ports out !! i
             = Some (exposed_port center_of padc port_orientation
                       (clearance pad_port_spacing padc)
                       (Component.name comp) pp i port)).
Proof.
  intros Hcomp Hpad. split.
  - intros Hnames select_ports.
    by apply (explicit_names_run center_of h component pad comp padc
                pad_port_spacing port_orientation layer select_ports
                port_names Hcomp Hpad).
  - intros Hnames select_ports selected Hready Hsel Hfree.
    destruct (routine_returns center_of h component pad comp padc
                pad_port_spacing port_orientation layer select_ports
                port_names Hcomp Hpad Hnames Hready Hsel Hfree)
      as (pp & Hpp & Hrun).
    eexists _, pp. split_and!; [done|exact Hrun|reflexivity|].
    intros i port Hi. cbn [output Component.ports].
    rewrite lookup_app_l
      by (rewrite length_exposed_ports; by eapply lookup_lt_Some).
    by rewrite (lookup_exposed_ports _ _ _ _ _ _ _ _ _ _ Hi).
Qed.

Lemma C4_port_names_take_precedence_witness :
  (∀ select_ports : dict Port.t → dict Port.t,
     add_electrical_pads_shortest centred 0 1 (Qc_of_Z 50)
       select_ports (Some ["e2"; "e1"]) (Qc_of_Z 0) "M3" scenario
     = (inl (AttributeError "values"),
        scenario ++ [Component.make (Component.name Component.new) []
                       [ComponentReference.make (Placed 0) (0, 0)%Qc] ∅]))
  ∧ ∃ out pp,
      dict_get "pad" (Component.ports (pad_of_size 20 20)) = Some pp
      ∧ add_electrical_pads_shortest centred 0 1 (Qc_of_Z 50)
          select_ports_electrical None (Qc_of_Z 0) "M3" scenario
        = (inr (length scenario), scenario ++ [out])
      ∧ Component.references out
        = ComponentReference.make (Placed 0) (0, 0)%Qc
          :: flat_map
               (λ port,
                  pad_reference centred 1 (pad_of_size 20 20) (Qc_of_Z 0)
                    (clearance (Qc_of_Z 50) (pad_of_size 20 20)) port
                  :: route_references centred (pad_of_size 20 20) (Qc_of_Z 0)
                       (clearance (Qc_of_Z 50) (pad_of_size 20 20)) "M3" port)
               [electrical_port "e1" 0 0 180; electrical_port "e2" 200 0 0]
      ∧ ∀ i port,
          [electrical_port "e1" 0 0 180; electrical_port "e2" 200 0 0] !! i
          = Some port →
          Component.ports out !! i
          = Some (exposed_port centred (pad_of_size 20 20) (Qc_of_Z 0)
                    (clearance (Qc_of_Z 50) (pad_of_size 20 20))
                    (Component.name wire) pp i port).
Proof.
  split.
  - apply (proj1 (C4_port_names_take_precedence centred scenario 0 1 wire
                    (pad_of_size 20 20) (Qc_of_Z 50) (Qc_of_Z 0) "M3"
                    (Some ["e2"; "e1"]) eq_refl eq_refl)).
    reflexivity.
  - apply (proj2 (C4_port_names_take_precedence centred scenario 0 1 wire
                    (pad_of_size 20 20) (Qc_of_Z 50) (Qc_of_Z 0) "M3"
                    None eq_refl eq_refl) eq_refl select_ports_electrical).
    + apply pad_of_size_ready.
    + apply wire_selection.
    + apply wire_collision_free.
Defined.

(** C5 (unknown port name). When [port_names] contains a name that is not a
    port of the component, the routine raises a lookup error, the
    [KeyError] of such a name, and returns no component. *)
Theorem C5_unknown_port_name
    (center_of : Component.t + RouteQuad → Qc * Qc) (h : heap)
    (component pad : loc) (comp padc : Component.t)
    (pad_port_spacing port_orientation : Qc) (layer : LayerSpec)
    (select_ports : dict Port.t → dict Port.t)
    (port_names : list string) (n : string) :
  h !! component = Some comp → h !! pad = Some padc →
  n ∈ port_names → n ∉ keys (Component.ports comp) →
  ∃ e h',
    add_electrical_pads_shortest center_of component pad pad_port_spacing
      select_ports (Some port_names) port_orientation layer h
    = (inl e, h')
    ∧ is_LookupError e = true
    ∧ ∃ k, e = KeyError k ∧ k ∈ port_names ∧ k ∉ keys (Component.ports comp).
Proof.
  intros Hcomp Hpad Hin Hn.
  assert (truthy (Some port_names) = true) as Hnames.
  { destruct port_names; [by apply elem_of_nil in Hin|done]. }
  rewrite (explicit_names_run center_of h component pad comp padc
             pad_port_spacing port_orientation layer select_ports
             (Some port_names) Hcomp Hpad Hnames).
  change (default [] (Some port_names)) with port_names.
  destruct (resolve_missing (Component.ports comp) port_names n Hin Hn)
    as (k & -> & Hk & Hk').
  eexists _, _. split_and!; [reflexivity|done|by exists k].
Qed.

Lemma C5_unknown_port_name_witness :
  ∃ e h',
    add_electrical_pads_shortest centred 0 1 (Qc_of_Z 50)
      select_ports_electrical (Some ["nonexistent"]) (Qc_of_Z 90) "M3" scenario
    = (inl e, h')
    ∧ is_LookupError e = true
    ∧ ∃ k, e = KeyError k ∧ k ∈ ["nonexistent"]
           ∧ k ∉ keys (Component.ports wire).
Proof.
  apply (C5_unknown_port_name centred scenario 0 1 wire (pad_of_size 20 20)
           (Qc_of_Z 50) (Qc_of_Z 90) "M3" select_ports_electrical
           ["nonexistent"] "nonexistent").
  - reflexivity.
  - reflexivity.
  - apply list_elem_of_here.
  - refine (bool_decide_unpack _ _). by vm_compute.
Defined.

(** C6 (naming of the pad ports). The pad port of the [i]-th selected port,
    counting from 0 in selection order, is exposed on the output under the
    name [elec-<source-name>-<i+1>]: it is the [i]-th entry of the output's
    ports, it carries that name, and it is the port [pad] of the pad placed
    for that selected port. *)
Theorem C6_pad_port_naming
    (center_of : Component.t + RouteQuad → Qc * Qc) (h : heap)
    (component pad : loc) (comp padc : Component.t)
    (pad_port_spacing port_orientation : Qc) (layer : LayerSpec)
    (select_ports : dict Port.t → dict Port.t)
    (port_names : option (list string)) (i : nat) (port : Port.t) :
  h !! component = Some comp → h !! pad = Some padc →
  truthy port_names = false →
  pad_ready padc port_orientation →
  let selected := values (select_ports (Component.ports comp)) in
  selection_of comp selected →
  collision_free comp (length selected) →
  selected !! i = Some port →
  let name := "elec-" +:+ Component.name comp +:+ "-" +:+ pretty (i + 1) in
  ∃ out pp exposed,
    dict_get "pad" (Component.ports padc) = Some pp
    ∧ add_electrical_pads_shortest center_of component pad pad_port_spacing
        select_ports port_names port_orientation layer h
      = (inr (length h), h ++ [out])
    ∧ Component.ports out !! i = Some (name, exposed)
    ∧ dict_get name (Component.ports out) = Some exposed
    ∧ Port.name exposed = name
    ∧ exposed
      = Port.rename name
          (Port.move (pad_origin center_of padc port_orientation
                        (clearance pad_port_spacing padc) port) pp).
Proof.
  intros Hcomp Hpad Hnames Hready selected Hsel Hfree Hi name.
  change name with (pad_port_name (Component.name comp) i). clear name.
  destruct (routine_returns center_of h component pad comp padc
              pad_port_spacing port_orientation layer select_ports port_names
              Hcomp Hpad Hnames Hready Hsel Hfree) as (pp & Hpp & Hrun).
  eexists _, pp, _. split_and!; [done|exact Hrun|..|reflexivity].
  - cbn [output Component.ports].
    rewrite lookup_app_l
      by (rewrite length_exposed_ports; by eapply lookup_lt_Some).
    by rewrite (lookup_exposed_ports _ _ _ _ _ _ _ _ _ _ Hi).
  - cbn [output Component.ports].
    by rewrite (dict_get_exposed _ _ _ _ _ _ _ _ _ _ Hi).
  - done.
Qed.

Lemma C6_pad_port_naming_witness :
  ∃ out pp exposed,
    dict_get "pad" (Component.ports (pad_of_size 20 20)) = Some pp
    ∧ add_electrical_pads_shortest centred 0 1 (Qc_of_Z 50)
        select_ports_electrical None (Qc_of_Z 0) "M3" scenario
      = (inr 2, scenario ++ [out])
    ∧ Component.ports out !! 1 = Some ("elec-wire-2", exposed)
    ∧ dict_get "elec-wire-2" (Component.ports out) = Some exposed
    ∧ Port.name exposed = "elec-wire-2"
    ∧ exposed
      = Port.rename "elec-wire-2"
          (Port.move (pad_origin centred (pad_of_size 20 20) (Qc_of_Z 0)
                        (clearance (Qc_of_Z 50) (pad_of_size 20 20))
                        (electrical_port "e2" 200 0 0)) pp).
Proof.
  apply (C6_pad_port_naming centred scenario 0 1 wire (pad_of_size 20 20)
           (Qc_of_Z 50) (Qc_of_Z 0) "M3" select_ports_electrical None 1
           (electrical_port "e2" 200 0 0)).
  - reflexivity.
  - reflexivity.
  - reflexivity.
  - apply pad_of_size_ready.
  - apply wire_selection.
  - apply wire_collision_free.
  - reflexivity.
Defined.

(** C7, as stated, fails. [port_orientation] is one value for the whole
    invocation, so both pads of the scenario are displaced the same way: no
    value of [port_orientation] (and no [port_names]) makes a single
    invocation expose [elec-wire-1] at (-60, 0) and [elec-wire-2] at
    (260, 0). *)
Lemma C7_counterexample :
  ¬ ∃ (port_orientation : Qc) (port_names : option (list string))
      (out : loc) (h' : heap) (c : Component.t),
      add_electrical_pads_shortest centred 0 1 (Qc_of_Z 50)
        select_ports_electrical port_names port_orientation "M3" scenario
      = (inr out, h')
      ∧ h' !! out = Some c
      ∧ port_position "elec-wire-1" c = Some (-60, 0)%Q
      ∧ port_position "elec-wire-2" c = Some (260, 0)%Q.
Proof.
  intros (o & port_names & out & h' & c & Hrun & Hc & H1 & H2).
  destruct (truthy port_names) eqn:Hnames.
  - destruct (explicit_names_raise centred scenario 0 1 (Qc_of_Z 50) o "M3"
                select_ports_electrical port_names Hnames)
      as (e & c' & Hraise & _).
    congruence.
  - destruct (routine_returns centred scenario 0 1 wire (pad_of_size 20 20)
                (Qc_of_Z 50) o "M3" select_ports_electrical port_names
                eq_refl eq_refl Hnames (pad_of_size_ready 20 20 o)
                wire_selection wire_collision_free)
      as (pp & Hpp & Hreturn).
    rewrite Hreturn in Hrun. injection Hrun as <- <-.
    injection Hpp as <-. injection Hc as <-.
    unfold port_position in H1, H2.
    unfold output in H1, H2. cbn [Component.ports] in H1, H2.
    change "elec-wire-1" with (pad_port_name (Component.name wire) 0) in H1.
    change "elec-wire-2" with (pad_port_name (Component.name wire) 1) in H2.
    rewrite (dict_get_exposed _ _ _ _ _ _
               [electrical_port "e1" 0 0 180; electrical_port "e2" 200 0 0]
               _ 0 (electrical_port "e1" 0 0 180) eq_refl) in H1.
    rewrite (dict_get_exposed _ _ _ _ _ _
               [electrical_port "e1" 0 0 180; electrical_port "e2" 200 0 0]
               _ 1 (electrical_port "e2" 200 0 0) eq_refl) in H2.
    unfold exposed_port, pad_origin, placement in H1, H2.
    repeat case_decide; vm_compute in H1, H2; congruence.
Qed.

(** C7, amended. On the scenario, one invocation with
    [port_orientation = 180] exposes [elec-wire-1] at (-60, 0) and
    [elec-wire-2] at (140, 0); one invocation with [port_orientation = 0]
    exposes [elec-wire-1] at (60, 0) and [elec-wire-2] at (260, 0). In both
    outputs the ports [e1] and [e2] are absent. *)
Theorem C7_scenario :
  (∃ out,
     add_electrical_pads_shortest centred 0 1 (Qc_of_Z 50)
       select_ports_electrical None (Qc_of_Z 180) "M3" scenario
     = (inr 2, scenario ++ [out])
     ∧ port_position "elec-wire-1" out = Some (-60, 0)%Q
     ∧ port_position "elec-wire-2" out = Some (140, 0)%Q
     ∧ keys (Component.ports out) = ["elec-wire-1"; "elec-wire-2"])
  ∧ (∃ out,
       add_electrical_pads_shortest centred 0 1 (Qc_of_Z 50)
         select_ports_electrical None (Qc_of_Z 0) "M3" scenario
       = (inr 2, scenario ++ [out])
       ∧ port_position "elec-wire-1" out = Some (60, 0)%Q
       ∧ port_position "elec-wire-2" out = Some (260, 0)%Q
       ∧ keys (Component.ports out) = ["elec-wire-1"; "elec-wire-2"]).
Proof.
  split; eexists; (split_and!; [vm_compute; reflexivity|by vm_compute..]).
Qed.

(** C8 (no mutation of the input). When the routine returns, every cell
    that existed before the call is unchanged: the wrapped component, hence
    the names and positions of its ports, and the pad. The component
    returned is a cell that did not exist before. *)
Theorem C8_input_not_mutated
    (center_of : Component.t + RouteQuad → Qc * Qc) (h h' : heap)
    (component pad out : loc) (comp padc : Component.t)
    (pad_port_spacing port_orientation : Qc) (layer : LayerSpec)
    (select_ports : dict Port.t → dict Port.t)
    (port_names : option (list string)) :
  add_electrical_pads_shortest center_of component pad pad_port_spacing
    select_ports port_names port_orientation layer h
  = (inr out, h') →
  h !! component = Some comp →
  h !! pad = Some padc →
  h' !! component = Some comp
  ∧ Component.ports <$> h' !! component = Some (Component.ports comp)
  ∧ h' !! pad = Some padc
  ∧ out = length h
  ∧ ∀ l x, h !! l = Some x → h' !! l = Some x.
Proof.
  intros Hrun Hcomp Hpad.
  destruct (routine_frame center_of component pad pad_port_spacing
              select_ports port_names port_orientation layer h)
    as [Hlen Hother].
  rewrite Hrun in Hlen, Hother. cbn [snd] in Hlen, Hother.
  assert (∀ l x, h !! l = Some x → h' !! l = Some x) as Hframe.
  { intros l x Hl. rewrite Hother; [done|by eapply lookup_lt_Some]. }
  split_and!; [by apply Hframe|by rewrite (Hframe _ _ Hcomp)|by apply Hframe
              | |done].
  unfold add_electrical_pads_shortest in Hrun.
  rewrite run_bind in Hrun. unfold Component_new in Hrun.
  cbv beta iota in Hrun.
  repeat (rewrite run_bind in Hrun;
          match type of Hrun with
          | context [match ?m ?h0 with _ => _ end] =>
              destruct (m h0) as [[?|?] ?]; [done|]
          end).
  rewrite run_ret in Hrun. by injection Hrun as <- _.
Qed.

Lemma C8_input_not_mutated_witness :
  let h' := (add_electrical_pads_shortest centred 0 1 (Qc_of_Z 50)
               select_ports_electrical None (Qc_of_Z 90) "M3" scenario).2 in
  h' !! 0 = Some wire
  ∧ Component.ports <$> h' !! 0 = Some (Component.ports wire)
  ∧ h' !! 1 = Some (pad_of_size 20 20)
  ∧ 2 = length scenario
  ∧ ∀ l x, scenario !! l = Some x → h' !! l = Some x.
Proof.
  cbv zeta.
  apply (C8_input_not_mutated centred scenario _ 0 1 2 wire (pad_of_size 20 20)
           (Qc_of_Z 50) (Qc_of_Z 90) "M3" select_ports_electrical None).
  - by vm_compute.
  - reflexivity.
  - reflexivity.
Defined.

(** C9 (the explicit-name path never returns). With a non-empty
    [port_names] the routine raises before it processes any port: the cell
    it leaves behind has no port and no pad, only, at most, the reference to
    the wrapped component. When every name resolves, the error is the
    [AttributeError] of looking up [values] on the list built on line 51. *)
Theorem C9_explicit_names_never_return
    (center_of : Component.t + RouteQuad → Qc * Qc) (h : heap)
    (component pad : loc)
    (pad_port_spacing port_orientation : Qc) (layer : LayerSpec)
    (select_ports : dict Port.t → dict Port.t)
    (port_names : option (list string)) :
  truthy port_names = true →
  ∃ e c',
    add_electrical_pads_shortest center_of component pad pad_port_spacing
      select_ports port_names port_orientation layer h
    = (inl e, h ++ [c'])
    ∧ Component.ports c' = []
    ∧ (Component.references c' = []
       ∨ Component.references c'
         = [ComponentReference.make (Placed component) (0, 0)%Qc])
    ∧ ∀ comp padc,
        h !! component = Some comp → h !! pad = Some padc →
        (∀ n, n ∈ default [] port_names → n ∈ keys (Component.ports comp)) →
        e = AttributeError "values".
Proof.
  intros Hnames.
  destruct (explicit_names_raise center_of h component pad pad_port_spacing
              port_orientation layer select_ports port_names Hnames)
    as (e & c' & Hrun & Hports & Hrefs).
  exists e, c'. split_and!; [done..|].
  intros comp padc Hcomp Hpad Hall.
  rewrite (explicit_names_run center_of h component pad comp padc
             pad_port_spacing port_orientation layer select_ports
             port_names Hcomp Hpad Hnames) in Hrun.
  destruct (resolve_present _ _ Hall) as [l Hl]. rewrite Hl in Hrun.
  by injection Hrun as <- _.
Qed.

Lemma C9_explicit_names_never_return_witness :
  ∃ e c',
    add_electrical_pads_shortest centred 0 1 (Qc_of_Z 50)
      select_ports_electrical (Some ["e1"; "e2"]) (Qc_of_Z 0) "M3" scenario
    = (inl e, scenario ++ [c'])
    ∧ Component.ports c' = []
    ∧ (Component.references c' = []
       ∨ Component.references c'
         = [ComponentReference.make (Placed 0) (0, 0)%Qc])
    ∧ ∀ comp padc,
        scenario !! 0 = Some comp → scenario !! 1 = Some padc →
        (∀ n, n ∈ default [] (Some ["e1"; "e2"]) →
              n ∈ keys (Component.ports comp)) →
        e = AttributeError "values".
Proof.
  apply (C9_explicit_names_never_return centred scenario 0 1 (Qc_of_Z 50)
           (Qc_of_Z 0) "M3" select_ports_electrical (Some ["e1"; "e2"])).
  reflexivity.
Defined.

(** C10 (the bookkeeping does not depend on the orientation). Whatever the
    value of [port_orientation], one of the four or not, an invocation that
    runs the loop adds exactly one reference to the pad and one pad port
    named [elec-<source-name>-<index>] per selected port, removes the name of
    every selected port from the output, and leaves the output with as many
    ports as the component. *)
Theorem C10_bookkeeping_for_any_orientation
    (center_of : Component.t + RouteQuad → Qc * Qc) (h : heap)
    (component pad : loc) (comp padc : Component.t)
    (pad_port_spacing port_orientation : Qc) (layer : LayerSpec)
    (select_ports : dict Port.t → dict Port.t)
    (port_names : option (list string)) :
  h !! component = Some comp → h !! pad = Some padc →
  truthy port_names = false →
  pad_ready padc port_orientation →
  let selected := values (select_ports (Component.ports comp)) in
  selection_of comp selected →
  collision_free comp (length selected) →
  ∃ out added,
    add_electrical_pads_shortest center_of component pad pad_port_spacing
      select_ports port_names port_orientation layer h
    = (inr (length h), h ++ [out])
    ∧ Component.references out
      = ComponentReference.make (Placed component) (0, 0)%Qc :: added
    ∧ length (filter (λ r, ComponentReference.parent r = Placed pad) added)
      = length selected
    ∧ keys (take (length selected) (Component.ports out))
      = (λ i, "elec-" +:+ Component.name comp +:+ "-" +:+ pretty (i + 1))
          <$> seq 0 (length selected)
    ∧ (∀ port, port ∈ selected → Port.name port ∉ keys (Component.ports out))
    ∧ length (Component.ports out) = length (Component.ports comp).
Proof.
  intros Hcomp Hpad Hnames Hready. cbv zeta. intros Hsel Hfree.
  pose proof (length_unselected comp _ Hsel) as Hlen.
  destruct (routine_returns center_of h component pad comp padc
              pad_port_spacing port_orientation layer select_ports port_names
              Hcomp Hpad Hnames Hready Hsel Hfree) as (pp & Hpp & Hrun).
  eexists _, _. split_and!; [exact Hrun|reflexivity|..].
  - apply placed_pad_references.
  - cbn [output Component.ports].
    rewrite take_app_length'
      by (by rewrite length_exposed_ports).
    by rewrite keys_exposed_ports.
  - intros port Hport. cbn [output Component.ports].
    rewrite keys_app, elem_of_app, keys_exposed_ports, keys_by_name.
    intros [(j & Heq & Hj%elem_of_seq)%list_elem_of_fmap|Hin].
    + cbn [Nat.add] in Heq. apply (Hfree j); [lia|]. rewrite <-Heq.
      apply (selection_names_sub comp _ Hsel).
      by apply list_elem_of_fmap_2.
    + apply list_elem_of_fmap in Hin as (q & Heq & [Hq _]%list_elem_of_filter).
      apply Hq. rewrite <-Heq. by apply list_elem_of_fmap_2.
  - cbn [output Component.ports].
    rewrite length_app, length_exposed_ports, (unselected_by_name comp) by done.
    unfold by_name. rewrite length_fmap.
    lia.
Qed.

Lemma C10_bookkeeping_for_any_orientation_witness :
  ∃ out added,
    add_electrical_pads_shortest centred 0 1 (Qc_of_Z 50)
      select_ports_electrical None (Qc_of_Z 45) "M3" scenario
    = (inr 2, scenario ++ [out])
    ∧ Component.references out
      = ComponentReference.make (Placed 0) (0, 0)%Qc :: added
    ∧ length (filter (λ r, ComponentReference.parent r = Placed 1) added)
      = length (values (select_ports_electrical (Component.ports wire)))
    ∧ keys (take (length (values (select_ports_electrical (Component.ports wire))))
                 (Component.ports out))
      = (λ i, "elec-" +:+ "wire" +:+ "-" +:+ pretty (i + 1))
          <$> seq 0 (length (values (select_ports_electrical (Component.ports wire))))
    ∧ (∀ port, port ∈ values (select_ports_electrical (Component.ports wire)) →
               Port.name port ∉ keys (Component.ports out))
    ∧ length (Component.ports out) = length (Component.ports wire).
Proof.
  apply (C10_bookkeeping_for_any_orientation centred scenario 0 1 wire
           (pad_of_size 20 20) (Qc_of_Z 50) (Qc_of_Z 45) "M3"
           select_ports_electrical None).
  - reflexivity.
  - reflexivity.
  - reflexivity.
  - apply pad_of_size_ready.
  - apply wire_selection.
  - apply wire_collision_free.
Defined.

(** * Further properties of the routine *)

(** ** Dictionaries: popping several keys *)

Section pop_all_facts.
Context {V : Type}.
Implicit Types (d : dict V) (ns : list string).

Lemma dict_pop_Some_filter k d d' :
  NoDup (keys d) → dict_pop k d = Some d' →
  k ∈ keys d ∧ d' = filter (λ kv, kv.1 ≠ k) d.
Proof.
  intros Hd Hpop. destruct (decide (k ∈ keys d)) as [Hk|Hk].
  - rewrite dict_pop_filter in Hpop by done. by injection Hpop as <-.
  - by rewrite dict_pop_None in Hpop.
Qed.

(** The pops succeed exactly when the keys popped are distinct keys of the
    dictionary. *)
Lemma pop_all_ok d ns :
  NoDup (keys d) →
  (pop_all d ns).1 = inr () ↔ NoDup ns ∧ ∀ n, n ∈ ns → n ∈ keys d.
Proof.
  revert d. induction ns as [|n ns IH]; intros d Hd; cbn [pop_all].
  - split; [intros _|done]. split; [constructor|by intros n ?%elem_of_nil].
  - destruct (dict_pop n d) as [d'|] eqn:Hpop.
    + apply dict_pop_Some_filter in Hpop as [Hn ->]; [|done].
      rewrite IH by by apply keys_filter_NoDup.
      rewrite NoDup_cons. split.
      * intros [Hns Hsub]. split_and!; [|done|].
        -- intros Hin%Hsub.
           apply (elem_of_keys_filter _ (λ k, k ≠ n)) in Hin as [_ ?]; done.
        -- intros m [->|Hm%Hsub]%elem_of_cons; [done|].
           by apply (elem_of_keys_filter _ (λ k, k ≠ n)) in Hm as [? _].
      * intros [[Hn' Hns] Hsub]. split; [done|]. intros m Hm.
        apply (elem_of_keys_filter _ (λ k, k ≠ n)); [done|].
        split; [apply Hsub; by right|by intros ->].
    + split; [done|]. intros [_ Hsub].
      assert (n ∈ keys d) as Hn by (apply Hsub; left).
      by rewrite dict_pop_filter in Hpop.
Qed.

(** When they fail, it is with the [KeyError] of one of the keys. *)
Lemma pop_all_error d ns e :
  (pop_all d ns).1 = inl e → ∃ k, e = KeyError k ∧ k ∈ ns.
Proof.
  revert d. induction ns as [|n ns IH]; intros d; cbn [pop_all]; [done|].
  destruct (dict_pop n d) as [d'|].
  - intros (k & -> & Hk)%IH. exists k. split; [done|by right].
  - intros [= <-]. exists n. split; [done|by left].
Qed.

Lemma pop_all_filter d ns :
  NoDup (keys d) → (pop_all d ns).1 = inr () →
  (pop_all d ns).2 = filter (λ kv, kv.1 ∉ ns) d.
Proof.
  revert d. induction ns as [|n ns IH]; intros d Hd; cbn [pop_all].
  - by rewrite filter_not_in_nil.
  - destruct (dict_pop n d) as [d'|] eqn:Hpop; [|done].
    apply dict_pop_Some_filter in Hpop as [Hn ->]; [|done].
    intros Hok. rewrite IH by (done || by apply keys_filter_NoDup).
    rewrite list_filter_filter. apply list_filter_iff.
    intros [k v]. rewrite not_elem_of_cons. simpl. tauto.
Qed.
End pop_all_facts.

(** ** Runs that raise *)

Section run_failures.
Variable center_of : Component.t + RouteQuad → Qc * Qc.
Variables (h : heap) (c component pad : loc).
Variables (comp padc : Component.t).
Variables (spacing port_orientation : Qc) (layer : LayerSpec).
Hypothesis c_allocated : c < length h.
Hypothesis component_off : component ≠ c.
Hypothesis pad_off : pad ≠ c.
Hypothesis component_at : h !! component = Some comp.
Hypothesis pad_at : h !! pad = Some padc.

Implicit Types (ps : dict Port.t) (rs : list ComponentReference.t).
Implicit Types (inf : gmap string Qc) (port : Port.t).

Local Ltac norm :=
  unfold Component.with_references;
  cbn [Component.references Component.name Component.ports Component.info
       fst snd].

Local Ltac run lem :=
  erewrite run_bind_ok
    by (eapply lem; first [done | apply lookup_last_reference]);
  norm.

Lemma info_getitem_missing cc l pc k :
  l ≠ c → h !! l = Some pc → Component.info pc !! k = None →
  info_getitem l k (<[c:=cc]> h) = (inl (AttributeError k), <[c:=cc]> h).
Proof.
  intros Hne Hl Hk. unfold info_getitem.
  rewrite (run_bind_ok _ _ _ _ _ (cell_off h c _ l pc Hne Hl)).
  by rewrite Hk.
Qed.

(** Lines 83-84 in general. *)
Lemma pops_run nm ps rs inf (selected : list Port.t) :
  for_each (λ port, ports_pop c (Port.name port)) selected
    (<[c:=Component.make nm ps rs inf]> h)
  = ((pop_all ps (names selected)).1,
     <[c:=Component.make nm (pop_all ps (names selected)).2 rs inf]> h).
Proof.
  unfold names. revert ps.
  induction selected as [|port ports IH]; intros ps; [done|].
  cbn [for_each fmap list_fmap pop_all]. rewrite run_bind.
  unfold ports_pop at 1.
  rewrite (run_bind_ok _ _ _ _ _ (cell_at h c c_allocated _)).
  cbn [Component.ports].
  destruct (dict_pop (Port.name port) ps) as [ps'|]; [|done].
  rewrite (update_at h c c_allocated). cbv beta iota.
  unfold Component.with_ports.
  cbn [Component.references Component.name Component.ports Component.info].
  apply IH.
Qed.

(** Line 81 when a name is taken: [add_port] refuses it. *)
Lemma add_ports_raises nm ps rs inf (d : dict Port.t) :
  ¬ (NoDup (names (values d)) ∧ ∀ n, n ∈ names (values d) → n ∉ keys ps) →
  ∃ ps',
    add_ports c d (<[c:=Component.make nm ps rs inf]> h)
    = (inl (ValueError "port name exists already"),
       <[c:=Component.make nm ps' rs inf]> h).
Proof.
  unfold add_ports, names. revert ps.
  induction (values d) as [|port ports IH]; intros ps Hbad.
  - destruct Hbad. split; [constructor|by intros n ?%elem_of_nil].
  - cbn [for_each]. rewrite run_bind.
    destruct (decide (Port.name port ∈ keys ps)) as [Hin|Hin].
    + rewrite (add_port_exists h c c_allocated) by done. by eexists.
    + rewrite (add_port_at h c c_allocated) by done. cbv beta iota.
      apply IH. intros [Hnd Hfresh]. apply Hbad.
      rewrite fmap_cons, NoDup_cons. split_and!; [|done|].
      * intros Hport. apply (Hfresh _ Hport).
        rewrite keys_app, elem_of_app. right. apply list_elem_of_here.
      * intros n [->|Hn]%elem_of_cons; [done|].
        intros Hps. apply (Hfresh n Hn).
        rewrite keys_app, elem_of_app. by left.
Qed.

(** Lines 60-77 when the pad has no pin of the name the branch looks up:
    the pad is placed, then the lookup fails. *)
Lemma place_pad_missing_pin nm ps rs inf i port pin :
  pin_of port_orientation = Some pin →
  pin ∉ keys (Component.ports padc) →
  place_pad center_of c component pad spacing port_orientation layer i port
    (<[c:=Component.make nm ps rs inf]> h)
  = (inl (KeyError pin),
     <[c:=Component.make nm ps
            (rs ++ [pad_reference center_of pad padc port_orientation
                      spacing port]) inf]> h).
Proof.
  intros Hpin Hmissing. unfold place_pad.
  rewrite run_bind, (add_ref_at h c c_allocated). cbv beta iota. norm.
  unfold pad_reference, pad_origin, placement. unfold pin_of in Hpin.
  repeat case_decide; try done; injection Hpin as <-; rewrite run_bind.
  - run set_x_last. run set_y_last.
    by erewrite run_bind, ports_getitem_missing
      by (done || apply lookup_last_reference).
  - run set_x_last. run set_y_last.
    by erewrite run_bind, ports_getitem_missing
      by (done || apply lookup_last_reference).
  - run set_y_last. run set_x_last.
    by erewrite run_bind, ports_getitem_missing
      by (done || apply lookup_last_reference).
  - run set_y_last. run set_x_last.
    by erewrite run_bind, ports_getitem_missing
      by (done || apply lookup_last_reference).
Qed.

(** Line 79 when the pad has no port [pad]: the pad is placed and routed,
    then the lookup fails. *)
Lemma place_pad_missing_pad nm ps rs inf i port :
  (∀ pin, pin_of port_orientation = Some pin →
          is_Some (dict_get pin (Component.ports padc))) →
  "pad" ∉ keys (Component.ports padc) →
  place_pad center_of c component pad spacing port_orientation layer i port
    (<[c:=Component.make nm ps rs inf]> h)
  = (inl (KeyError "pad"),
     <[c:=Component.make nm ps
            (rs ++ pad_reference center_of pad padc port_orientation
                     spacing port
                :: route_references center_of padc port_orientation spacing
                     layer port) inf]> h).
Proof.
  intros Hpins Hmissing. unfold place_pad.
  rewrite run_bind, (add_ref_at h c c_allocated). cbv beta iota. norm.
  unfold pad_reference, route_references, pad_origin, placement.
  unfold pin_of in Hpins.
  assert (∀ rs' (r r' : ComponentReference.t),
            ((rs' ++ [r]) ++ [r']) !! length rs' = Some r) as Hlookup.
  { intros rs' r r'. rewrite lookup_app_l by (rewrite length_app; simpl; lia).
    apply lookup_last_reference. }
  repeat case_decide.
  - destruct (Hpins "e1" eq_refl) as [q Hq]. rewrite Hq, run_bind.
    run set_x_last. run set_y_last.
    erewrite run_bind_ok
      by (eapply ports_getitem_at; [done..|apply lookup_last_reference|done]).
    rewrite run_bind, (add_ref_at h c c_allocated); cbv beta iota; norm.
    rewrite run_ret.
    erewrite run_bind, ports_getitem_missing by (done || apply Hlookup).
    by rewrite <-app_assoc.
  - destruct (Hpins "e3" eq_refl) as [q Hq]. rewrite Hq, run_bind.
    run set_x_last. run set_y_last.
    erewrite run_bind_ok
      by (eapply ports_getitem_at; [done..|apply lookup_last_reference|done]).
    rewrite run_bind, (add_ref_at h c c_allocated); cbv beta iota; norm.
    rewrite run_ret.
    erewrite run_bind, ports_getitem_missing by (done || apply Hlookup).
    by rewrite <-app_assoc.
  - destruct (Hpins "e4" eq_refl) as [q Hq]. rewrite Hq, run_bind.
    run set_y_last. run set_x_last.
    erewrite run_bind_ok
      by (eapply ports_getitem_at; [done..|apply lookup_last_reference|done]).
    rewrite run_bind, (add_ref_at h c c_allocated); cbv beta iota; norm.
    rewrite run_ret.
    erewrite run_bind, ports_getitem_missing by (done || apply Hlookup).
    by rewrite <-app_assoc.
  - destruct (Hpins "e2" eq_refl) as [q Hq]. rewrite Hq, run_bind.
    run set_y_last. run set_x_last.
    erewrite run_bind_ok
      by (eapply ports_getitem_at; [done..|apply lookup_last_reference|done]).
    rewrite run_bind, (add_ref_at h c c_allocated); cbv beta iota; norm.
    rewrite run_ret.
    erewrite run_bind, ports_getitem_missing by (done || apply Hlookup).
    by rewrite <-app_assoc.
  - rewrite run_bind, run_ret. cbv beta iota.
    by erewrite run_bind, ports_getitem_missing
      by (done || apply lookup_last_reference).
Qed.
End run_failures.

(** ** The outcomes of the routine without port names *)

Lemma is_Some_dict_get {V : Type} (k : string) (d : dict V) :
  is_Some (dict_get k d) ↔ k ∈ keys d.
Proof.
  rewrite <-not_eq_None_Some, dict_get_None.
  split; [apply dec_stable|by intros ? ?].
Qed.

Lemma keys_exposed_ports_names center_of padc o s name pp ports :
  keys (exposed_ports center_of padc o s name pp 0 ports)
  = pad_port_names name (length ports).
Proof. by rewrite keys_exposed_ports. Qed.

Lemma collision_free_disjoint comp n :
  collision_free comp n ↔
  ∀ k, k ∈ names (values (Component.ports comp)) →
       k ∉ pad_port_names (Component.name comp) n.
Proof.
  unfold collision_free, pad_port_names. split.
  - intros Hfree k Hk (j & -> & Hj%elem_of_seq)%list_elem_of_fmap.
    apply (Hfree j); [lia|done].
  - intros Hdisj j Hj Hin. apply (Hdisj _ Hin).
    apply list_elem_of_fmap_2, elem_of_seq. lia.
Qed.

Section outcomes.
Variable center_of : Component.t + RouteQuad → Qc * Qc.
Variables (h : heap) (component pad : loc).
Variables (comp padc : Component.t).
Variables (pad_port_spacing port_orientation : Qc) (layer : LayerSpec).
Variable select_ports : dict Port.t → dict Port.t.
Variable port_names : option (list string).
Hypothesis component_at : h !! component = Some comp.
Hypothesis pad_at : h !! pad = Some padc.
Hypothesis no_names : truthy port_names = false.

Let c : loc := length h.
Let h0 : heap := h ++ [Component.new].
Let selected : list Port.t := values (select_ports (Component.ports comp)).
Let reference_to_component : ComponentReference.t :=
  ComponentReference.make (Placed component) (0, 0)%Qc.
Let fresh_name : string := Component.name Component.new.

Local Lemma c_in_h0 : c < length h0.
Proof. unfold c, h0. rewrite length_app. simpl. lia. Qed.

Local Lemma component_not_c : component ≠ c.
Proof. apply lookup_lt_Some in component_at. unfold c. lia. Qed.

Local Lemma pad_not_c : pad ≠ c.
Proof. apply lookup_lt_Some in pad_at. unfold c. lia. Qed.

Local Lemma component_in_h0 : h0 !! component = Some comp.
Proof. unfold h0. rewrite lookup_app_l; [done|by eapply lookup_lt_Some]. Qed.

Local Lemma pad_in_h0 : h0 !! pad = Some padc.
Proof. unfold h0. rewrite lookup_app_l; [done|by eapply lookup_lt_Some]. Qed.

Local Lemma at_c cc : <[c:=cc]> h0 = h ++ [cc].
Proof.
  unfold c, h0. rewrite insert_app_r_alt by lia. by rewrite Nat.sub_diag.
Qed.

Local Ltac side :=
  first [ apply c_in_h0 | apply component_not_c | apply pad_not_c
        | apply component_in_h0 | apply pad_in_h0 | done ].

(** Lines 46-55: the routine up to the selection of the ports. *)
Lemma after_selection :
  add_electrical_pads_shortest center_of component pad pad_port_spacing
    select_ports port_names port_orientation layer h
  = (xsize ← info_getitem pad "xsize";
     for_enumerate
       (place_pad center_of c component pad
          (pad_port_spacing + xsize / Qc_of_Z 2)%Qc port_orientation layer)
       0 selected;;
     rp ← ref_ports (Ref c 0);
     add_ports c rp;;
     for_each (λ port, ports_pop c (Port.name port)) selected;;
     copy_child_info c component;;
     mret c)
      (<[c:=Component.make fresh_name [] [reference_to_component] ∅]> h0).
Proof.
  unfold add_electrical_pads_shortest.
  rewrite (prologue_run h component pad comp padc component_at pad_at).
  erewrite run_bind_ok
    by (eapply (selected_ports_at h0 c c_in_h0 _ 0 component (0, 0)%Qc comp);
        [apply component_not_c|apply component_in_h0|reflexivity|done]).
  by rewrite unmoved_ports.
Qed.

(** Line 57 on a pad whose info has no [xsize]. *)
Lemma missing_xsize_run :
  Component.info padc !! "xsize" = None →
  add_electrical_pads_shortest center_of component pad pad_port_spacing
    select_ports port_names port_orientation layer h
  = (inl (AttributeError "xsize"),
     h ++ [Component.make fresh_name [] [reference_to_component] ∅]).
Proof.
  intros Hxs. rewrite after_selection, run_bind.
  rewrite (info_getitem_missing h0 c _ pad padc "xsize" pad_not_c pad_in_h0 Hxs).
  by rewrite at_c.
Qed.

Section with_xsize.
Variable xsize : Qc.
Hypothesis xsize_at : Component.info padc !! "xsize" = Some xsize.

Let spacing : Qc := clearance pad_port_spacing padc.

Local Lemma spacing_eq : spacing = (pad_port_spacing + xsize / Qc_of_Z 2)%Qc.
Proof. unfold spacing, clearance. by rewrite xsize_at. Qed.

Lemma after_xsize :
  add_electrical_pads_shortest center_of component pad pad_port_spacing
    select_ports port_names port_orientation layer h
  = (for_enumerate
       (place_pad center_of c component pad spacing port_orientation layer)
       0 selected;;
     rp ← ref_ports (Ref c 0);
     add_ports c rp;;
     for_each (λ port, ports_pop c (Port.name port)) selected;;
     copy_child_info c component;;
     mret c)
      (<[c:=Component.make fresh_name [] [reference_to_component] ∅]> h0).
Proof.
  rewrite after_selection, spacing_eq.
  by rewrite (run_bind_ok _ _ _ _ _
    (info_getitem_at h0 c _ pad padc "xsize" xsize pad_not_c pad_in_h0
       xsize_at)).
Qed.

(** The first selected port of a pad without the pin of the branch. *)
Lemma missing_pin_run port rest pin :
  selected = port :: rest →
  pin_of port_orientation = Some pin →
  pin ∉ keys (Component.ports padc) →
  add_electrical_pads_shortest center_of component pad pad_port_spacing
    select_ports port_names port_orientation layer h
  = (inl (KeyError pin),
     h ++ [Component.make fresh_name []
             [reference_to_component;
              pad_reference center_of pad padc port_orientation spacing port]
             ∅]).
Proof.
  intros Hsel Hpin Hmissing. rewrite after_xsize, Hsel.
  cbn [for_enumerate]. rewrite run_bind, run_bind.
  erewrite place_pad_missing_pin by side.
  by rewrite at_c.
Qed.

(** The first selected port of a pad without the port [pad]. *)
Lemma missing_pad_port_run port rest :
  selected = port :: rest →
  (∀ pin, pin_of port_orientation = Some pin →
          is_Some (dict_get pin (Component.ports padc))) →
  "pad" ∉ keys (Component.ports padc) →
  add_electrical_pads_shortest center_of component pad pad_port_spacing
    select_ports port_names port_orientation layer h
  = (inl (KeyError "pad"),
     h ++ [Component.make fresh_name []
             (reference_to_component
              :: pad_reference center_of pad padc port_orientation spacing port
              :: route_references center_of padc port_orientation spacing
                   layer port)
             ∅]).
Proof.
  intros Hsel Hpins Hmissing. rewrite after_xsize, Hsel.
  cbn [for_enumerate]. rewrite run_bind, run_bind.
  erewrite place_pad_missing_pad by side.
  by rewrite at_c.
Qed.

Section with_pad.
(** [pp] is the port [pad] of the pad, when a port is selected. *)
Variable pp : Port.t.
Hypothesis pad_usable :
  selected ≠ [] →
  dict_get "pad" (Component.ports padc) = Some pp
  ∧ ∀ pin, pin_of port_orientation = Some pin →
           is_Some (dict_get pin (Component.ports padc)).

Let exposed : dict Port.t :=
  exposed_ports center_of padc port_orientation spacing (Component.name comp)
    pp 0 selected.
Let references : list ComponentReference.t :=
  reference_to_component
  :: placed_references center_of pad padc port_orientation spacing layer
       selected.

(** Lines 59-79. *)
Lemma after_loop :
  add_electrical_pads_shortest center_of component pad pad_port_spacing
    select_ports port_names port_orientation layer h
  = (rp ← ref_ports (Ref c 0);
     add_ports c rp;;
     for_each (λ port, ports_pop c (Port.name port)) selected;;
     copy_child_info c component;;
     mret c)
      (<[c:=Component.make fresh_name exposed references ∅]> h0).
Proof.
  rewrite after_xsize, run_bind. unfold exposed, references.
  destruct selected as [|port rest] eqn:Hsel; [done|].
  destruct pad_usable as [Hpp Hpins]; [done|].
  by rewrite (place_pads_at center_of h0 c component pad comp padc pp spacing
                port_orientation layer c_in_h0 component_not_c pad_not_c
                component_in_h0 pad_in_h0 Hpp Hpins)
    by (intros j _; apply not_elem_of_nil).
Qed.

(** Line 81 when a port of the component cannot be added: two ports of the
    component have the same name, or one has the name of a pad port. *)
Lemma collision_run :
  ¬ (NoDup (names (values (Component.ports comp)))
     ∧ collision_free comp (length selected)) →
  ∃ ps,
    add_electrical_pads_shortest center_of component pad pad_port_spacing
      select_ports port_names port_orientation layer h
    = (inl (ValueError "port name exists already"),
       h ++ [Component.make fresh_name ps references ∅]).
Proof.
  intros Hbad. rewrite after_loop.
  erewrite run_bind_ok
    by (eapply (ref_ports_at h0 c c_in_h0 _ 0 component (0, 0)%Qc comp);
        [apply component_not_c|apply component_in_h0|reflexivity]).
  rewrite unmoved_ports, run_bind.
  destruct (add_ports_raises h0 c c_in_h0 fresh_name exposed references ∅
              (Component.ports comp)) as [ps ->].
  - intros [Hnd Hfresh]. apply Hbad. split; [done|].
    apply collision_free_disjoint. intros k Hk.
    rewrite <-(keys_exposed_ports_names center_of padc port_orientation
                 spacing _ pp). by apply Hfresh.
  - exists ps. by rewrite at_c.
Qed.

(** Lines 81-86 when the ports of the component can be added: the outcome
    is that of the pops. *)
Lemma after_add_ports :
  NoDup (names (values (Component.ports comp))) →
  collision_free comp (length selected) →
  let all_ports := exposed ++ by_name (values (Component.ports comp)) in
  add_electrical_pads_shortest center_of component pad pad_port_spacing
    select_ports port_names port_orientation layer h
  = match (pop_all all_ports (names selected)).1 with
    | inr _ =>
        (inr c,
         h ++ [Component.make fresh_name
                 (pop_all all_ports (names selected)).2 references
                 (Component.info comp ∪ ∅)])
    | inl e =>
        (inl e,
         h ++ [Component.make fresh_name
                 (pop_all all_ports (names selected)).2 references ∅])
    end.
Proof.
  intros Hnd Hfree. cbv zeta. rewrite after_loop.
  erewrite run_bind_ok
    by (eapply (ref_ports_at h0 c c_in_h0 _ 0 component (0, 0)%Qc comp);
        [apply component_not_c|apply component_in_h0|reflexivity]).
  rewrite unmoved_ports, run_bind.
  rewrite (add_ports_at h0 c c_in_h0); [|done|]; cbv beta iota.
  2:{ intros k Hk. unfold exposed. rewrite keys_exposed_ports_names.
      by apply collision_free_disjoint. }
  rewrite run_bind, (pops_run h0 c c_in_h0).
  destruct (pop_all _ _).1 as [e|[]]; [by rewrite at_c|].
  erewrite run_bind_ok
    by (eapply (copy_child_info_at h0 c c_in_h0 _ _ _ _ component comp);
        [apply component_not_c|apply component_in_h0]).
  by rewrite run_ret, at_c.
Qed.

Lemma all_ports_NoDup :
  NoDup (names (values (Component.ports comp))) →
  collision_free comp (length selected) →
  NoDup (keys (exposed ++ by_name (values (Component.ports comp)))).
Proof.
  intros Hnd Hfree. rewrite keys_app, keys_by_name. apply NoDup_app.
  split_and!; [apply exposed_ports_NoDup| |done].
  intros k. unfold exposed. rewrite keys_exposed_ports_names.
  intros Hk Hin. by apply (proj1 (collision_free_disjoint comp _) Hfree k).
Qed.
End with_pad.
End with_xsize.
End outcomes.

(** ** When the routine returns, and what it returns then *)

Section returns_iff.
Variable center_of : Component.t + RouteQuad → Qc * Qc.
Variables (h : heap) (component pad : loc).
Variables (comp padc : Component.t).
Variables (pad_port_spacing port_orientation : Qc) (layer : LayerSpec).
Variable select_ports : dict Port.t → dict Port.t.
Variable port_names : option (list string).
Hypothesis component_at : h !! component = Some comp.
Hypothesis pad_at : h !! pad = Some padc.

Let selected : list Port.t := values (select_ports (Component.ports comp)).
Let pp : Port.t := default no_port (dict_get "pad" (Component.ports padc)).
Let spacing : Qc := clearance pad_port_spacing padc.

Let result : Component.t :=
  returned center_of component pad comp padc pad_port_spacing
    port_orientation layer selected.

Local Lemma pad_usable_pp :
  (selected ≠ [] →
   is_Some (dict_get "pad" (Component.ports padc))
   ∧ ∀ pin, pin_of port_orientation = Some pin →
            is_Some (dict_get pin (Component.ports padc))) →
  selected ≠ [] →
  dict_get "pad" (Component.ports padc) = Some pp
  ∧ ∀ pin, pin_of port_orientation = Some pin →
           is_Some (dict_get pin (Component.ports padc)).
Proof.
  intros Husable Hne. destruct (Husable Hne) as [[x Hx] Hpins].
  split; [|done]. unfold pp. by rewrite Hx.
Qed.

Lemma returns_sufficient :
  returns_when comp padc port_orientation port_names selected →
  add_electrical_pads_shortest center_of component pad pad_port_spacing
    select_ports port_names port_orientation layer h
  = (inr (length h), h ++ [result]).
Proof.
  intros (Hnames & [xsize Hxs] & Husable & HP & Hfree & HS & Hsub).
  rewrite (after_add_ports center_of h component pad comp padc
             pad_port_spacing port_orientation layer select_ports port_names
             component_at pad_at Hnames xsize Hxs pp
             (pad_usable_pp Husable) HP Hfree).
  cbv zeta.
  assert (NoDup (keys
            (exposed_ports center_of padc port_orientation spacing
               (Component.name comp) pp 0 selected
             ++ by_name (values (Component.ports comp))))) as Hkeys
    by (by apply all_ports_NoDup).
  assert ((pop_all
             (exposed_ports center_of padc port_orientation
                (clearance pad_port_spacing padc) (Component.name comp) pp 0
                (values (select_ports (Component.ports comp)))
              ++ by_name (values (Component.ports comp)))
             (names (values (select_ports (Component.ports comp))))).1
          = inr ()) as Hok.
  { apply pop_all_ok; [done|]. split; [done|]. intros n Hn.
    rewrite keys_app, keys_exposed_ports_names, keys_by_name.
    by apply Hsub. }
  rewrite Hok, pop_all_filter by done. reflexivity.
Qed.

Lemma returns_necessary out h' :
  add_electrical_pads_shortest center_of component pad pad_port_spacing
    select_ports port_names port_orientation layer h
  = (inr out, h') →
  returns_when comp padc port_orientation port_names selected.
Proof.
  intros Hrun.
  assert (truthy port_names = false) as Hnames.
  { destruct (truthy port_names) eqn:Hnames; [|done].
    destruct (explicit_names_raise center_of h component pad pad_port_spacing
                port_orientation layer select_ports port_names Hnames)
      as (e & c' & Hraise & _). congruence. }
  destruct (Component.info padc !! "xsize") as [xsize|] eqn:Hxs.
  2:{ rewrite (missing_xsize_run center_of h component pad comp padc
                 pad_port_spacing port_orientation layer select_ports
                 port_names component_at pad_at Hnames Hxs) in Hrun.
      congruence. }
  assert (selected ≠ [] →
          is_Some (dict_get "pad" (Component.ports padc))
          ∧ ∀ pin, pin_of port_orientation = Some pin →
                   is_Some (dict_get pin (Component.ports padc)))
    as Husable.
  { intros Hne. destruct selected as [|port rest] eqn:Hsel; [done|].
    assert (∀ pin, pin_of port_orientation = Some pin →
                   is_Some (dict_get pin (Component.ports padc))) as Hpins.
    { intros pin Hpin. apply is_Some_dict_get.
      destruct (decide (pin ∈ keys (Component.ports padc))) as [|Hmissing];
        [done|].
      rewrite (missing_pin_run center_of h component pad comp padc
                 pad_port_spacing port_orientation layer select_ports
                 port_names component_at pad_at Hnames xsize Hxs
                 port rest pin Hsel Hpin Hmissing) in Hrun.
      congruence. }
    split; [|done]. apply is_Some_dict_get.
    destruct (decide ("pad" ∈ keys (Component.ports padc))) as [|Hmissing];
      [done|].
    rewrite (missing_pad_port_run center_of h component pad comp padc
               pad_port_spacing port_orientation layer select_ports
               port_names component_at pad_at Hnames xsize Hxs
               port rest Hsel Hpins Hmissing) in Hrun.
    congruence. }
  destruct (decide (NoDup (names (values (Component.ports comp)))
                    ∧ collision_free comp (length selected)))
    as [[HP Hfree]|Hbad].
  2:{ destruct (collision_run center_of h component pad comp padc
                  pad_port_spacing port_orientation layer select_ports
                  port_names component_at pad_at Hnames xsize Hxs pp
                  (pad_usable_pp Husable) Hbad) as [ps Hraise].
      congruence. }
  rewrite (after_add_ports center_of h component pad comp padc
             pad_port_spacing port_orientation layer select_ports port_names
             component_at pad_at Hnames xsize Hxs pp
             (pad_usable_pp Husable) HP Hfree) in Hrun.
  cbv zeta in Hrun.
  assert (NoDup (keys
            (exposed_ports center_of padc port_orientation spacing
               (Component.name comp) pp 0 selected
             ++ by_name (values (Component.ports comp))))) as Hkeys
    by (by apply all_ports_NoDup).
  destruct (pop_all _ _).1 as [e|[]] eqn:Hpops; [congruence|].
  apply pop_all_ok in Hpops as [HS Hsub]; [|done].
  split_and!; [done|by eexists|done..|].
  intros n Hn%Hsub.
  by rewrite keys_app, keys_exposed_ports_names, keys_by_name in Hn.
Qed.

(** The output has as many ports as the component, under distinct names. *)
Lemma returned_ports :
  returns_when comp padc port_orientation port_names selected →
  NoDup (keys (Component.ports result))
  ∧ length (Component.ports result) = length (Component.ports comp).
Proof.
  intros (Hnames & Hxs & Husable & HP & Hfree & HS & Hsub).
  assert (NoDup (keys
            (exposed_ports center_of padc port_orientation spacing
               (Component.name comp) pp 0 selected
             ++ by_name (values (Component.ports comp))))) as Hkeys
    by (by apply all_ports_NoDup).
  unfold result, returned. cbn [Component.ports]. fold pp spacing.
  split; [by apply keys_filter_NoDup|].
  assert (∀ n, n ∈ names selected →
               n ∈ keys (exposed_ports center_of padc port_orientation spacing
                           (Component.name comp) pp 0 selected
                         ++ by_name (values (Component.ports comp))))
    as Hsub'.
  { intros n Hn.
    rewrite keys_app, keys_exposed_ports_names, keys_by_name.
    by apply Hsub. }
  pose proof (length_filter_not_in (names selected) _ Hkeys HS Hsub') as Hlen.
  rewrite length_app, length_exposed_ports in Hlen.
  assert (length (names selected) = length selected) as Hl1
    by apply length_fmap.
  assert (length (by_name (values (Component.ports comp)))
          = length (Component.ports comp)) as Hl2
    by (unfold by_name, values; by rewrite !length_fmap).
  lia.
Qed.
End returns_iff.

(** ** Facts shared by the properties below *)

(** Every port of the component returned is stored under its own name. *)
Lemma exposed_ports_keyed center_of padc o s name pp start ports k p :
  (k, p) ∈ exposed_ports center_of padc o s name pp start ports →
  Port.name p = k.
Proof.
  revert start. induction ports as [|port ports IH]; intros start;
    cbn [exposed_ports]; [by intros ?%elem_of_nil|].
  intros [Heq|Hin]%elem_of_cons; [|by eapply IH].
  unfold exposed_port in Heq. by injection Heq as -> ->.
Qed.

Lemma by_name_keyed ports k p : (k, p) ∈ by_name ports → Port.name p = k.
Proof.
  unfold by_name. by intros (q & [= -> ->] & _)%list_elem_of_fmap.
Qed.

Lemma returned_keyed center_of component pad comp padc d o layer selected
    k p :
  (k, p) ∈ Component.ports
             (returned center_of component pad comp padc d o layer selected) →
  Port.name p = k ∧ k ∉ names selected.
Proof.
  unfold returned. cbn [Component.ports].
  intros [Hk [Hin|Hin]%elem_of_app]%list_elem_of_filter.
  - split; [by eapply exposed_ports_keyed|done].
  - split; [by eapply by_name_keyed|done].
Qed.

(** The references placed by the loop when the pad has the pin [q] of the
    branch taken: for each port its pad, then its routing shape. *)
Lemma placed_references_routed center_of pad padc o s layer pin q ports :
  pin_of o = Some pin →
  dict_get pin (Component.ports padc) = Some q →
  placed_references center_of pad padc o s layer ports
  = flat_map (λ port,
      [pad_reference center_of pad padc o s port;
       route_reference center_of padc o s layer q port]) ports.
Proof.
  intros Hpin Hq. unfold placed_references.
  induction ports as [|port ports IH]; [done|].
  cbn [flat_map]. rewrite IH. f_equal. unfold route_references.
  unfold pin_of in Hpin. unfold placement.
  repeat case_decide; try done; injection Hpin as <-; by rewrite Hq.
Qed.

Lemma routing_shapes_routed center_of pad padc o s layer q ports r0 :
  is_routed r0 = false →
  length (filter (λ r, is_routed r = true)
            (r0 :: flat_map (λ port,
               [pad_reference center_of pad padc o s port;
                route_reference center_of padc o s layer q port]) ports))
  = length ports.
Proof.
  intros Hr0. rewrite filter_cons_False by by rewrite Hr0.
  induction ports as [|port ports IH]; [done|].
  cbn [flat_map app]. rewrite filter_cons_False by done.
  rewrite filter_cons_True by done. simpl. by rewrite IH.
Qed.

(** The position of the pin of a pad that has been placed for a port. *)
Lemma placed_pin_position center_of padc o d xsize w q port :
  Component.info padc !! "xsize" = Some xsize →
  Some (position q) = facing o w (center_of (inl padc)) →
  Some (position (Port.move
                    (pad_origin center_of padc o (clearance d padc) port) q))
  = ahead o (d + xsize / Qc_of_Z 2 - w) port.
Proof.
  intros Hxs. unfold facing, ahead, pad_origin, placement, clearance, position.
  rewrite Hxs. change (default _ (Some xsize)) with xsize.
  destruct q as [n qx qy qo qw ql qt].
  destruct (center_of (inl padc)) as [cx cy].
  cbn [Port.move Port.x Port.y fst snd].
  repeat case_decide; try done; intros [= -> ->];
    cbn [Port.move Port.x Port.y fst snd]; do 2 f_equal; ring.
Qed.

(** The position of a port of a pad placed for a port, when that port of
    the pad sits at the centre of the pad. *)
Lemma placed_centre_position center_of padc o d xsize pp port :
  Component.info padc !! "xsize" = Some xsize →
  is_Some (pin_of o) →
  position pp = center_of (inl padc) →
  Some (position (Port.move
                    (pad_origin center_of padc o (clearance d padc) port) pp))
  = center_at_clearance o d (xsize / Qc_of_Z 2) port.
Proof.
  intros Hxs [pin Hpin].
  unfold center_at_clearance, pad_origin, placement, clearance, position.
  unfold pin_of in Hpin. rewrite Hxs. change (default _ (Some xsize)) with xsize.
  destruct pp as [n qx qy qo qw ql qt].
  destruct (center_of (inl padc)) as [cx cy].
  cbn [Port.move Port.x Port.y fst snd].
  repeat case_decide; try done; intros [= -> ->];
    cbn [Port.move Port.x Port.y fst snd]; do 2 f_equal; ring.
Qed.

(** The port [pad] of a pad that is placed at least once. *)
Lemma pad_port_default (padc : Component.t) (o : Qc) (selected : list Port.t) :
  (selected ≠ [] →
   is_Some (dict_get "pad" (Component.ports padc))
   ∧ ∀ pin, pin_of o = Some pin →
            is_Some (dict_get pin (Component.ports padc))) →
  selected ≠ [] →
  dict_get "pad" (Component.ports padc)
  = Some (default no_port (dict_get "pad" (Component.ports padc)))
  ∧ ∀ pin, pin_of o = Some pin →
           is_Some (dict_get pin (Component.ports padc)).
Proof.
  intros Husable Hne. destruct (Husable Hne) as [[x Hx] Hpins].
  split; [|done]. by rewrite Hx.
Qed.

(** ** Errors and edge cases *)



(** X2 (nothing selected). When the selector returns an empty mapping, the
    routine returns a plain wrapper of the component: its ports are the
    ports of the component, in their order and under their names, its only
    reference is the one to the component, and it has the info of the
    component. The pad is not placed, so that it needs neither pins nor a
    port [pad]; only its [xsize] is read. *)
Theorem X2_nothing_selected
    (center_of : Component.t + RouteQuad → Qc * Qc) (h : heap)
    (component pad : loc) (comp padc : Component.t)
    (pad_port_spacing port_orientation : Qc) (layer : LayerSpec)
    (select_ports : dict Port.t → dict Port.t)
    (port_names : option (list string)) :
  h !! component = Some comp → h !! pad = Some padc →
  truthy port_names = false →
  is_Some (Component.info padc !! "xsize") →
  NoDup (names (values (Component.ports comp))) →
  values (select_ports (Component.ports comp)) = [] →
  ∃ out,
    add_electrical_pads_shortest center_of component pad pad_port_spacing
      select_ports port_names port_orientation layer h
    = (inr (length h), h ++ [out])
    ∧ Component.ports out = by_name (values (Component.ports comp))
    ∧ Component.references out
      = [ComponentReference.make (Placed component) (0, 0)%Qc]
    ∧ Component.info out = Component.info comp.
Proof.
  intros Hcomp Hpad Hnames Hxs HP Hsel. eexists. split.
  - apply (returns_sufficient center_of h component pad comp padc
             pad_port_spacing port_orientation layer select_ports port_names
             Hcomp Hpad).
    rewrite Hsel. split_and!; try done.
    + intros j Hj. simpl in Hj. lia.
    + constructor.
    + by intros n ?%elem_of_nil.
  - rewrite Hsel. unfold returned.
    cbn [Component.ports Component.references Component.info exposed_ports
         placed_references flat_map app names fmap list_fmap].
    by rewrite filter_not_in_nil, (right_id_L ∅ (∪)).
Qed.

Lemma X2_nothing_selected_witness :
  ∃ out,
    add_electrical_pads_shortest centred 0 1 (Qc_of_Z 50)
      select_nothing None (Qc_of_Z 90) "M3" [wire; bare_pad]
    = (inr 2, [wire; bare_pad] ++ [out])
    ∧ Component.ports out = by_name (values (Component.ports wire))
    ∧ Component.references out
      = [ComponentReference.make (Placed 0) (0, 0)%Qc]
    ∧ Component.info out = Component.info wire.
Proof.
  apply (X2_nothing_selected centred [wire; bare_pad] 0 1 wire bare_pad
           (Qc_of_Z 50) (Qc_of_Z 90) "M3" select_nothing None).
  - reflexivity.
  - reflexivity.
  - reflexivity.
  - by eexists.
  - refine (bool_decide_unpack _ _). by vm_compute.
  - reflexivity.
Defined.

(** X3 (pad without the pin of the branch). With an orientation among the
    four and at least one port selected, a pad that has no pin under the
    name the branch looks up ([e1] for 0, [e3] for 180, [e4] for 90, [e2]
    for 270) makes the routine raise the [KeyError] of that name at the first
    selected port: no port is exposed and no routing shape is emitted. *)
Theorem X3_pad_without_pin
    (center_of : Component.t + RouteQuad → Qc * Qc) (h : heap)
    (component pad : loc) (comp padc : Component.t)
    (pad_port_spacing port_orientation : Qc) (layer : LayerSpec)
    (select_ports : dict Port.t → dict Port.t)
    (port_names : option (list string)) (pin : string) :
  h !! component = Some comp → h !! pad = Some padc →
  truthy port_names = false →
  is_Some (Component.info padc !! "xsize") →
  values (select_ports (Component.ports comp)) ≠ [] →
  pin_of port_orientation = Some pin →
  pin ∉ keys (Component.ports padc) →
  ∃ out,
    add_electrical_pads_shortest center_of component pad pad_port_spacing
      select_ports port_names port_orientation layer h
    = (inl (KeyError pin), h ++ [out])
    ∧ Component.ports out = []
    ∧ routing_shapes out = [].
Proof.
  intros Hcomp Hpad Hnames [xsize Hxs] Hsel Hpin Hmissing.
  destruct (values (select_ports (Component.ports comp)))
    as [|port rest] eqn:Hports; [done|].
  eexists.
  split; [by apply (missing_pin_run center_of h component pad comp padc
                      pad_port_spacing port_orientation layer select_ports
                      port_names Hcomp Hpad Hnames xsize Hxs port rest pin)|].
  done.
Qed.

Lemma X3_pad_without_pin_witness :
  ∃ out,
    add_electrical_pads_shortest centred 0 1 (Qc_of_Z 50)
      select_ports_electrical None (Qc_of_Z 90) "M3" [wire; pad_without_pins]
    = (inl (KeyError "e4"), [wire; pad_without_pins] ++ [out])
    ∧ Component.ports out = []
    ∧ routing_shapes out = [].
Proof.
  apply (X3_pad_without_pin centred [wire; pad_without_pins] 0 1 wire
           pad_without_pins (Qc_of_Z 50) (Qc_of_Z 90) "M3"
           select_ports_electrical None "e4").
  - reflexivity.
  - reflexivity.
  - reflexivity.
  - exists (Qc_of_Z 20). by vm_compute.
  - discriminate.
  - by vm_compute.
  - refine (bool_decide_unpack _ _). by vm_compute.
Defined.

(** X4 (pad without the port [pad]). With at least one port selected, a pad
    that has the pin of the branch taken but no port named [pad] makes the
    routine raise [KeyError('pad')] on line 79, at the first selected port:
    no port is exposed. *)
Theorem X4_pad_without_pad_port
    (center_of : Component.t + RouteQuad → Qc * Qc) (h : heap)
    (component pad : loc) (comp padc : Component.t)
    (pad_port_spacing port_orientation : Qc) (layer : LayerSpec)
    (select_ports : dict Port.t → dict Port.t)
    (port_names : option (list string)) :
  h !! component = Some comp → h !! pad = Some padc →
  truthy port_names = false →
  is_Some (Component.info padc !! "xsize") →
  values (select_ports (Component.ports comp)) ≠ [] →
  (∀ pin, pin_of port_orientation = Some pin →
          pin ∈ keys (Component.ports padc)) →
  "pad" ∉ keys (Component.ports padc) →
  ∃ out,
    add_electrical_pads_shortest center_of component pad pad_port_spacing
      select_ports port_names port_orientation layer h
    = (inl (KeyError "pad"), h ++ [out])
    ∧ Component.ports out = [].
Proof.
  intros Hcomp Hpad Hnames [xsize Hxs] Hsel Hpins Hmissing.
  destruct (values (select_ports (Component.ports comp)))
    as [|port rest] eqn:Hports; [done|].
  eexists. split.
  - apply (missing_pad_port_run center_of h component pad comp padc
             pad_port_spacing port_orientation layer select_ports port_names
             Hcomp Hpad Hnames xsize Hxs port rest); [done| |done].
    intros pin Hpin. by apply is_Some_dict_get, Hpins.
  - done.
Qed.

Lemma X4_pad_without_pad_port_witness :
  ∃ out,
    add_electrical_pads_shortest centred 0 1 (Qc_of_Z 50)
      select_ports_electrical None (Qc_of_Z 180) "M3"
      [wire; pad_without_pad_port]
    = (inl (KeyError "pad"), [wire; pad_without_pad_port] ++ [out])
    ∧ Component.ports out = [].
Proof.
  apply (X4_pad_without_pad_port centred [wire; pad_without_pad_port] 0 1
           wire pad_without_pad_port (Qc_of_Z 50) (Qc_of_Z 180) "M3"
           select_ports_electrical None).
  - reflexivity.
  - reflexivity.
  - reflexivity.
  - exists (Qc_of_Z 20). by vm_compute.
  - discriminate.
  - intros pin Hpin. vm_compute in Hpin. injection Hpin as <-.
    refine (bool_decide_unpack _ _). by vm_compute.
  - refine (bool_decide_unpack _ _). by vm_compute.
Defined.

(** X5 (a port of the component has the name of a pad port). Line 81 adds
    every port of the component to the output, which already holds the pad
    ports. For a component whose ports are stored under their own, distinct
    names, when one of them has the name [elec-<source-name>-<j+1>] given to
    the pad port of a selected port, the output refuses that name a second
    time and the routine raises a [ValueError]; the info of the component
    has not been copied then. *)
Theorem X5_port_name_collision
    (center_of : Component.t + RouteQuad → Qc * Qc) (h : heap)
    (component pad : loc) (comp padc : Component.t)
    (pad_port_spacing port_orientation : Qc) (layer : LayerSpec)
    (select_ports : dict Port.t → dict Port.t)
    (port_names : option (list string)) (j : nat) :
  h !! component = Some comp → h !! pad = Some padc →
  truthy port_names = false →
  pad_ready padc port_orientation →
  well_named comp →
  j < length (values (select_ports (Component.ports comp))) →
  pad_port_name (Component.name comp) j
  ∈ names (values (Component.ports comp)) →
  ∃ msg out,
    add_electrical_pads_shortest center_of component pad pad_port_spacing
      select_ports port_names port_orientation layer h
    = (inl (ValueError msg), h ++ [out])
    ∧ Component.info out = ∅.
Proof.
  intros Hcomp Hpad Hnames ([xsize Hxs] & Hpp & Hpins) Hwell Hj Hin.
  destruct (collision_run center_of h component pad comp padc
              pad_port_spacing port_orientation layer select_ports port_names
              Hcomp Hpad Hnames xsize Hxs
              (default no_port (dict_get "pad" (Component.ports padc))))
    as [ps Hrun].
  - by apply pad_port_default.
  - intros [HP Hfree]. by apply (Hfree j).
  - eexists _, _. split; [exact Hrun|done].
Qed.

Lemma X5_port_name_collision_witness :
  ∃ msg out,
    add_electrical_pads_shortest centred 0 1 (Qc_of_Z 50)
      select_ports_electrical None (Qc_of_Z 0) "M3"
      [clashing_wire; pad_of_size 20 20]
    = (inl (ValueError msg), [clashing_wire; pad_of_size 20 20] ++ [out])
    ∧ Component.info out = ∅.
Proof.
  apply (X5_port_name_collision centred [clashing_wire; pad_of_size 20 20]
           0 1 clashing_wire (pad_of_size 20 20) (Qc_of_Z 50) (Qc_of_Z 0)
           "M3" select_ports_electrical None 0).
  - reflexivity.
  - reflexivity.
  - reflexivity.
  - apply pad_of_size_ready.
  - split; [reflexivity|]. refine (bool_decide_unpack _ _). by vm_compute.
  - vm_compute. lia.
  - refine (bool_decide_unpack _ _). by vm_compute.
Defined.

(** X6 (a selected port cannot be popped). Lines 83-84 pop the name of
    every selected port from the ports of the output. When the selector
    returns two ports of the same name (the same port under two keys, say),
    or a port whose name is neither that of a port of the component nor
    that of a pad port, the pop raises the [KeyError] of a selected name:
    the routine has placed the pads, and fails before it copies the info of
    the component. *)
Theorem X6_selected_port_not_popped
    (center_of : Component.t + RouteQuad → Qc * Qc) (h : heap)
    (component pad : loc) (comp padc : Component.t)
    (pad_port_spacing port_orientation : Qc) (layer : LayerSpec)
    (select_ports : dict Port.t → dict Port.t)
    (port_names : option (list string)) :
  h !! component = Some comp → h !! pad = Some padc →
  truthy port_names = false →
  pad_ready padc port_orientation →
  let selected := values (select_ports (Component.ports comp)) in
  NoDup (names (values (Component.ports comp))) →
  collision_free comp (length selected) →
  (¬ NoDup (names selected)
   ∨ ∃ n, n ∈ names selected
          ∧ n ∉ pad_port_names (Component.name comp) (length selected)
                ++ names (values (Component.ports comp))) →
  ∃ k out,
    add_electrical_pads_shortest center_of component pad pad_port_spacing
      select_ports port_names port_orientation layer h
    = (inl (KeyError k), h ++ [out])
    ∧ k ∈ names selected
    ∧ Component.info out = ∅.
Proof.
  intros Hcomp Hpad Hnames ([xsize Hxs] & Hpp & Hpins) selected HP Hfree Hbad.
  set (pp := default no_port (dict_get "pad" (Component.ports padc))).
  assert (selected ≠ [] →
          dict_get "pad" (Component.ports padc) = Some pp
          ∧ ∀ pin, pin_of port_orientation = Some pin →
                   is_Some (dict_get pin (Component.ports padc)))
    as Husable by by apply pad_port_default.
  pose proof (after_add_ports center_of h component pad comp padc
                pad_port_spacing port_orientation layer select_ports
                port_names Hcomp Hpad Hnames xsize Hxs pp Husable HP Hfree)
    as Hrun.
  cbv zeta in Hrun.
  pose proof (all_ports_NoDup center_of comp padc pad_port_spacing
                port_orientation select_ports pp HP Hfree) as Hkeys.
  destruct (pop_all _ _).1 as [e|[]] eqn:Hpops.
  - apply pop_all_error in Hpops as (k & -> & Hk).
    eexists _, _. split; [exact Hrun|done].
  - apply pop_all_ok in Hpops as [HS Hsub]; [|done].
    destruct Hbad as [Hdup|(n & Hn & Hnew)]; [done|].
    apply Hsub in Hn.
    by rewrite keys_app, keys_exposed_ports_names, keys_by_name in Hn.
Qed.

Lemma X6_selected_port_not_popped_witness :
  ∃ k out,
    add_electrical_pads_shortest centred 0 1 (Qc_of_Z 50)
      select_first_twice None (Qc_of_Z 0) "M3" scenario
    = (inl (KeyError k), scenario ++ [out])
    ∧ k ∈ names (values (select_first_twice (Component.ports wire)))
    ∧ Component.info out = ∅.
Proof.
  apply (X6_selected_port_not_popped centred scenario 0 1 wire
           (pad_of_size 20 20) (Qc_of_Z 50) (Qc_of_Z 0) "M3"
           select_first_twice None).
  - reflexivity.
  - reflexivity.
  - reflexivity.
  - apply pad_of_size_ready.
  - refine (bool_decide_unpack _ _). by vm_compute.
  - apply wire_collision_free.
  - left. refine (bool_decide_unpack _ _). by vm_compute.
Defined.

(** ** When the routine returns *)

(** X7 (the routine returns only when). For a component whose ports are
    stored under their own, distinct names, a call that returns has met
    every one of these conditions, so that a call that misses one of them
    raises: no port names are given; the info of the pad has an [xsize];
    when a port is selected, the pad has a port [pad] and the pin of the
    branch taken; no port of the component has the name of a pad port; and
    the names of the selected ports are distinct, each the name of a port of
    the component or of a pad port. *)
Theorem X7_returns_only_when
    (center_of : Component.t + RouteQuad → Qc * Qc) (h h' : heap)
    (component pad out : loc) (comp padc : Component.t)
    (pad_port_spacing port_orientation : Qc) (layer : LayerSpec)
    (select_ports : dict Port.t → dict Port.t)
    (port_names : option (list string)) :
  add_electrical_pads_shortest center_of component pad pad_port_spacing
    select_ports port_names port_orientation layer h
  = (inr out, h') →
  h !! component = Some comp → h !! pad = Some padc →
  well_named comp →
  let selected := values (select_ports (Component.ports comp)) in
  truthy port_names = false
  ∧ is_Some (Component.info padc !! "xsize")
  ∧ (selected ≠ [] →
     is_Some (dict_get "pad" (Component.ports padc))
     ∧ ∀ pin, pin_of port_orientation = Some pin →
              is_Some (dict_get pin (Component.ports padc)))
  ∧ collision_free comp (length selected)
  ∧ NoDup (names selected)
  ∧ ∀ n, n ∈ names selected →
         n ∈ pad_port_names (Component.name comp) (length selected)
             ++ names (values (Component.ports comp)).
Proof.
  intros Hrun Hcomp Hpad Hwell selected.
  destruct (returns_necessary center_of h component pad comp padc
              pad_port_spacing port_orientation layer select_ports
              port_names Hcomp Hpad out h' Hrun)
    as (Hnames & Hxs & Husable & HP & Hfree & HS & Hsub).
  by split_and!.
Qed.

Lemma X7_returns_only_when_witness :
  let selected := values (select_ports_electrical (Component.ports wire)) in
  truthy None = false
  ∧ is_Some (Component.info (pad_of_size 20 20) !! "xsize")
  ∧ (selected ≠ [] →
     is_Some (dict_get "pad" (Component.ports (pad_of_size 20 20)))
     ∧ ∀ pin, pin_of (Qc_of_Z 0) = Some pin →
              is_Some (dict_get pin (Component.ports (pad_of_size 20 20))))
  ∧ collision_free wire (length selected)
  ∧ NoDup (names selected)
  ∧ ∀ n, n ∈ names selected →
         n ∈ pad_port_names (Component.name wire) (length selected)
             ++ names (values (Component.ports wire)).
Proof.
  apply (X7_returns_only_when centred scenario
           (add_electrical_pads_shortest centred 0 1 (Qc_of_Z 50)
              select_ports_electrical None (Qc_of_Z 0) "M3" scenario).2
           0 1 2 wire (pad_of_size 20 20) (Qc_of_Z 50) (Qc_of_Z 0) "M3"
           select_ports_electrical None).
  - by vm_compute.
  - reflexivity.
  - reflexivity.
  - split; [reflexivity|]. refine (bool_decide_unpack _ _). by vm_compute.
Defined.

(** X8 (what is returned). Whenever the routine returns, it returns a new
    cell whose ports have distinct names, each port stored under its own
    name; no selected port's name is left among them; there are as many
    ports as the component has; and the info is that of the component. *)
Theorem X8_returned_ports_well_formed
    (center_of : Component.t + RouteQuad → Qc * Qc) (h h' : heap)
    (component pad out : loc) (comp padc : Component.t)
    (pad_port_spacing port_orientation : Qc) (layer : LayerSpec)
    (select_ports : dict Port.t → dict Port.t)
    (port_names : option (list string)) :
  add_electrical_pads_shortest center_of component pad pad_port_spacing
    select_ports port_names port_orientation layer h
  = (inr out, h') →
  h !! component = Some comp → h !! pad = Some padc →
  let selected := values (select_ports (Component.ports comp)) in
  ∃ c_out,
    h' = h ++ [c_out] ∧ out = length h
    ∧ NoDup (keys (Component.ports c_out))
    ∧ (∀ k p, (k, p) ∈ Component.ports c_out → Port.name p = k)
    ∧ (∀ port, port ∈ selected →
               Port.name port ∉ keys (Component.ports c_out))
    ∧ length (Component.ports c_out) = length (Component.ports comp)
    ∧ Component.info c_out = Component.info comp.
Proof.
  intros Hrun Hcomp Hpad selected.
  pose proof (returns_necessary center_of h component pad comp padc
                pad_port_spacing port_orientation layer select_ports
                port_names Hcomp Hpad out h' Hrun) as Hwhen.
  pose proof (returns_sufficient center_of h component pad comp padc
                pad_port_spacing port_orientation layer select_ports
                port_names Hcomp Hpad Hwhen) as Hrun'.
  pose proof (returned_ports center_of component pad comp padc
                pad_port_spacing port_orientation layer select_ports
                port_names Hwhen) as [Hnd Hlen].
  rewrite Hrun in Hrun'. injection Hrun' as -> ->.
  eexists. split_and!; [done|done|exact Hnd| | |exact Hlen|].
  - intros k p Hin. by apply returned_keyed in Hin as [? _].
  - intros port Hport Hin.
    apply list_elem_of_fmap in Hin as ([k p] & Hk & Hin). simpl in Hk.
    apply returned_keyed in Hin as [_ Hout]. apply Hout. subst k.
    by apply list_elem_of_fmap_2.
  - unfold returned. cbn [Component.info]. by rewrite (right_id_L ∅ (∪)).
Qed.

Lemma X8_returned_ports_well_formed_witness :
  ∃ c_out,
    (add_electrical_pads_shortest centred 0 1 (Qc_of_Z 50)
       select_ports_electrical None (Qc_of_Z 0) "M3" scenario).2
    = scenario ++ [c_out]
    ∧ 2 = length scenario
    ∧ NoDup (keys (Component.ports c_out))
    ∧ (∀ k p, (k, p) ∈ Component.ports c_out → Port.name p = k)
    ∧ (∀ port,
         port ∈ values (select_ports_electrical (Component.ports wire)) →
         Port.name port ∉ keys (Component.ports c_out))
    ∧ length (Component.ports c_out) = length (Component.ports wire)
    ∧ Component.info c_out = Component.info wire.
Proof.
  apply (X8_returned_ports_well_formed centred scenario _ 0 1 2 wire
           (pad_of_size 20 20) (Qc_of_Z 50) (Qc_of_Z 0) "M3"
           select_ports_electrical None).
  - by vm_compute.
  - reflexivity.
  - reflexivity.
Defined.

(** X9 (a failing call leaves its inputs alone). When the routine raises,
    at whatever line, every cell that existed before the call is unchanged:
    the component and the pad are as they were, and the routine has written
    only to the output it was building. *)
Theorem X9_failing_call_leaves_inputs
    (center_of : Component.t + RouteQuad → Qc * Qc) (h h' : heap)
    (component pad : loc) (pad_port_spacing port_orientation : Qc)
    (layer : LayerSpec) (select_ports : dict Port.t → dict Port.t)
    (port_names : option (list string)) (e : exn)
    (l : loc) (x : Component.t) :
  add_electrical_pads_shortest center_of component pad pad_port_spacing
    select_ports port_names port_orientation layer h
  = (inl e, h') →
  h !! l = Some x →
  h' !! l = Some x.
Proof.
  intros Hrun Hl.
  destruct (routine_frame center_of component pad pad_port_spacing
              select_ports port_names port_orientation layer h)
    as [_ Hsame].
  rewrite Hrun in Hsame. cbn [snd] in Hsame.
  rewrite Hsame; [done|]. by eapply lookup_lt_Some.
Qed.

Lemma X9_failing_call_leaves_inputs_witness :
  (add_electrical_pads_shortest centred 0 1 (Qc_of_Z 50)
     select_ports_electrical None (Qc_of_Z 90) "M3"
     [wire; pad_without_pins]).2 !! 1
  = Some pad_without_pins.
Proof.
  apply (X9_failing_call_leaves_inputs centred [wire; pad_without_pins] _
           0 1 (Qc_of_Z 50) (Qc_of_Z 90) "M3" select_ports_electrical None
           (KeyError "e4") 1 pad_without_pins).
  - by vm_compute.
  - reflexivity.
Defined.

(** ** Pads, routing shapes and pad ports of the four branches *)

(** X10 (one routing shape per selected port). In each of the four
    branches (lines 62-77), a returning call leaves in the output, after
    the reference to the component and for each selected port in selection
    order, the reference to its pad followed by one routing shape: the
    shape runs from the selected port itself to the pin of that pad ([e1]
    for 0, [e3] for 180, [e4] for 90, [e2] for 270) as seen through the
    placed pad, on the layer given. There are as many routing shapes as
    selected ports. *)
Theorem X10_one_routing_shape_per_port
    (center_of : Component.t + RouteQuad → Qc * Qc) (h : heap)
    (component pad : loc) (comp padc : Component.t)
    (pad_port_spacing port_orientation : Qc) (layer : LayerSpec)
    (select_ports : dict Port.t → dict Port.t)
    (port_names : option (list string)) (pin : string) (q : Port.t) :
  h !! component = Some comp → h !! pad = Some padc →
  truthy port_names = false →
  pad_ready padc port_orientation →
  let selected := values (select_ports (Component.ports comp)) in
  selection_of comp selected →
  collision_free comp (length selected) →
  pin_of port_orientation = Some pin →
  dict_get pin (Component.ports padc) = Some q →
  ∃ out,
    add_electrical_pads_shortest center_of component pad pad_port_spacing
      select_ports port_names port_orientation layer h
    = (inr (length h), h ++ [out])
    ∧ Component.references out
      = ComponentReference.make (Placed component) (0, 0)%Qc
        :: flat_map (λ port,
             [pad_reference center_of pad padc port_orientation
                (clearance pad_port_spacing padc) port;
              ComponentReference.make
                (Routed (route_quad port
                           (Port.move
                              (pad_origin center_of padc port_orientation
                                 (clearance pad_port_spacing padc) port) q)
                           layer))
                (0, 0)%Qc]) selected
    ∧ length (routing_shapes out) = length selected.
Proof.
  intros Hcomp Hpad Hnames Hready selected Hsel Hfree Hpin Hq.
  destruct (routine_returns center_of h component pad comp padc
              pad_port_spacing port_orientation layer select_ports port_names
              Hcomp Hpad Hnames Hready Hsel Hfree) as (pp & Hpp & Hrun).
  eexists. split; [exact Hrun|].
  unfold routing_shapes. cbn [output Component.references].
  rewrite (placed_references_routed _ _ _ _ _ _ pin q _ Hpin Hq).
  split; [done|]. by apply routing_shapes_routed.
Qed.

Lemma X10_one_routing_shape_per_port_witness :
  ∃ out,
    add_electrical_pads_shortest centred 0 1 (Qc_of_Z 50)
      select_ports_electrical None (Qc_of_Z 0) "M3" scenario
    = (inr (length scenario), scenario ++ [out])
    ∧ Component.references out
      = ComponentReference.make (Placed 0) (0, 0)%Qc
        :: flat_map (λ port,
             [pad_reference centred 1 (pad_of_size 20 20) (Qc_of_Z 0)
                (clearance (Qc_of_Z 50) (pad_of_size 20 20)) port;
              ComponentReference.make
                (Routed (route_quad port
                           (Port.move
                              (pad_origin centred (pad_of_size 20 20)
                                 (Qc_of_Z 0)
                                 (clearance (Qc_of_Z 50) (pad_of_size 20 20))
                                 port)
                              (Port.make "e1" (- Qc_of_Z 20 / Qc_of_Z 2)
                                 (Qc_of_Z 0) (Qc_of_Z 180) (Qc_of_Z 20) "M3"
                                 "electrical"))
                           "M3"))
                (0, 0)%Qc])
            (values (select_ports_electrical (Component.ports wire)))
    ∧ length (routing_shapes out)
      = length (values (select_ports_electrical (Component.ports wire))).
Proof.
  apply (X10_one_routing_shape_per_port centred scenario 0 1 wire
           (pad_of_size 20 20) (Qc_of_Z 50) (Qc_of_Z 0) "M3"
           select_ports_electrical None "e1").
  - reflexivity.
  - reflexivity.
  - reflexivity.
  - apply pad_of_size_ready.
  - apply wire_selection.
  - apply wire_collision_free.
  - by vm_compute.
  - reflexivity.
Defined.

(** X11 (the gap that is routed). In each of the four branches, when the
    pin of the branch sits at distance [w] from the centre of the pad on
    the side that faces the port, the routing shape of a selected port
    ends at distance [pad_port_spacing + xsize / 2 - w] straight ahead of
    the port (east, west, north or south of it). For a pin on the edge of
    the pad at half of [xsize] from the centre, the gap routed is exactly
    the [pad_port_spacing] of the caller. The distances are those of the
    code where its floats do not round: the spacing, [xsize], [w] and the
    coordinates of the pad's centre and of the port are whole numbers. *)
Theorem X11_routed_gap
    (center_of : Component.t + RouteQuad → Qc * Qc) (h : heap)
    (component pad : loc) (comp padc : Component.t)
    (pad_port_spacing port_orientation xsize w : Qc) (layer : LayerSpec)
    (select_ports : dict Port.t → dict Port.t)
    (port_names : option (list string)) (pin : string) (q : Port.t) :
  h !! component = Some comp → h !! pad = Some padc →
  truthy port_names = false →
  pad_ready padc port_orientation →
  let selected := values (select_ports (Component.ports comp)) in
  selection_of comp selected →
  collision_free comp (length selected) →
  Component.info padc !! "xsize" = Some xsize →
  pin_of port_orientation = Some pin →
  dict_get pin (Component.ports padc) = Some q →
  Some (position q) = facing port_orientation w (center_of (inl padc)) →
  whole_inputs center_of padc pad_port_spacing xsize →
  whole w →
  ∃ out,
    add_electrical_pads_shortest center_of component pad pad_port_spacing
      select_ports port_names port_orientation layer h
    = (inr (length h), h ++ [out])
    ∧ ∀ port, port ∈ selected → whole_port port →
        ∃ r end_of_route,
          r ∈ routing_shapes out
          ∧ ComponentReference.parent r
            = Routed (route_quad port end_of_route layer)
          ∧ ComponentReference.origin r = (0, 0)%Qc
          ∧ Some (position end_of_route)
            = ahead port_orientation
                (pad_port_spacing + xsize / Qc_of_Z 2 - w) port
          ∧ (w = (xsize / Qc_of_Z 2)%Qc →
             Some (position end_of_route)
             = ahead port_orientation pad_port_spacing port).
Proof.
  intros Hcomp Hpad Hnames Hready selected Hsel Hfree Hxs Hpin Hq Hfacing
    Hwhole Hw.
  destruct (routine_returns center_of h component pad comp padc
              pad_port_spacing port_orientation layer select_ports port_names
              Hcomp Hpad Hnames Hready Hsel Hfree) as (pp & Hpp & Hrun).
  eexists. split; [exact Hrun|]. intros port Hport Hwp.
  pose proof (placed_pin_position center_of padc port_orientation
                pad_port_spacing xsize w q port Hxs Hfacing) as Hend.
  exists (route_reference center_of padc port_orientation
            (clearance pad_port_spacing padc) layer q port),
         (Port.move (pad_origin center_of padc port_orientation
                       (clearance pad_port_spacing padc) port) q).
  split_and!; [|reflexivity|reflexivity|exact Hend|].
  - unfold routing_shapes. cbn [output Component.references].
    rewrite (placed_references_routed _ _ _ _ _ _ pin q _ Hpin Hq).
    apply list_elem_of_filter. split; [done|]. right.
    apply list_elem_of_In, in_flat_map. exists port.
    split; [by apply list_elem_of_In|]. right. by left.
  - intros ->. rewrite Hend. f_equal. ring.
Qed.

Lemma X11_routed_gap_witness :
  ∃ out,
    add_electrical_pads_shortest centred 0 1 (Qc_of_Z 50)
      select_ports_electrical None (Qc_of_Z 0) "M3" scenario
    = (inr (length scenario), scenario ++ [out])
    ∧ ∀ port,
        port ∈ values (select_ports_electrical (Component.ports wire)) →
        whole_port port →
        ∃ r end_of_route,
          r ∈ routing_shapes out
          ∧ ComponentReference.parent r
            = Routed (route_quad port end_of_route "M3")
          ∧ ComponentReference.origin r = (0, 0)%Qc
          ∧ Some (position end_of_route)
            = ahead (Qc_of_Z 0)
                (Qc_of_Z 50 + Qc_of_Z 20 / Qc_of_Z 2 - Qc_of_Z 10) port
          ∧ (Qc_of_Z 10 = (Qc_of_Z 20 / Qc_of_Z 2)%Qc →
             Some (position end_of_route)
             = ahead (Qc_of_Z 0) (Qc_of_Z 50) port).
Proof.
  apply (X11_routed_gap centred scenario 0 1 wire (pad_of_size 20 20)
           (Qc_of_Z 50) (Qc_of_Z 0) (Qc_of_Z 20) (Qc_of_Z 10) "M3"
           select_ports_electrical None "e1"
           (Port.make "e1" (- Qc_of_Z 20 / Qc_of_Z 2) (Qc_of_Z 0)
              (Qc_of_Z 180) (Qc_of_Z 20) "M3" "electrical")).
  - reflexivity.
  - reflexivity.
  - reflexivity.
  - apply pad_of_size_ready.
  - apply wire_selection.
  - apply wire_collision_free.
  - by vm_compute.
  - by vm_compute.
  - reflexivity.
  - refine (bool_decide_unpack _ _). by vm_compute.
  - by vm_compute.
  - by vm_compute.
Defined.

(** X12 (where the pad port is exposed). In each of the four branches, for
    a pad whose port [pad] sits at the centre of the pad, the port exposed
    for the [i]-th selected port lies at distance
    [pad_port_spacing + xsize / 2] straight ahead of that port, and it has
    the orientation, width, layer and type of the port [pad]. The distance
    is that of the code where its floats do not round: the spacing,
    [xsize] and the coordinates of the pad's centre and of the port are
    whole numbers. *)
Theorem X12_pad_port_position
    (center_of : Component.t + RouteQuad → Qc * Qc) (h : heap)
    (component pad : loc) (comp padc : Component.t)
    (pad_port_spacing port_orientation xsize : Qc) (layer : LayerSpec)
    (select_ports : dict Port.t → dict Port.t)
    (port_names : option (list string)) (i : nat) (port pp : Port.t) :
  h !! component = Some comp → h !! pad = Some padc →
  truthy port_names = false →
  pad_ready padc port_orientation →
  let selected := values (select_ports (Component.ports comp)) in
  selection_of comp selected →
  collision_free comp (length selected) →
  Component.info padc !! "xsize" = Some xsize →
  is_Some (pin_of port_orientation) →
  dict_get "pad" (Component.ports padc) = Some pp →
  position pp = center_of (inl padc) →
  selected !! i = Some port →
  whole_inputs center_of padc pad_port_spacing xsize →
  whole_port port →
  ∃ out exposed,
    add_electrical_pads_shortest center_of component pad pad_port_spacing
      select_ports port_names port_orientation layer h
    = (inr (length h), h ++ [out])
    ∧ dict_get (pad_port_name (Component.name comp) i) (Component.ports out)
      = Some exposed
    ∧ Some (position exposed)
      = ahead port_orientation (pad_port_spacing + xsize / Qc_of_Z 2) port
    ∧ Port.orientation exposed = Port.orientation pp
    ∧ Port.width exposed = Port.width pp
    ∧ Port.layer exposed = Port.layer pp
    ∧ Port.port_type exposed = Port.port_type pp.
Proof.
  intros Hcomp Hpad Hnames Hready selected Hsel Hfree Hxs Hbranch Hpp Hcentre
    Hi Hwhole Hwp.
  destruct (routine_returns center_of h component pad comp padc
              pad_port_spacing port_orientation layer select_ports port_names
              Hcomp Hpad Hnames Hready Hsel Hfree) as (pp' & Hpp' & Hrun).
  assert (pp' = pp) as -> by congruence.
  exists (output center_of component pad comp padc pp pad_port_spacing
            port_orientation layer selected),
         (Port.rename (pad_port_name (Component.name comp) i)
            (Port.move (pad_origin center_of padc port_orientation
                          (clearance pad_port_spacing padc) port) pp)).
  split_and!; [exact Hrun| |..].
  - cbn [output Component.ports].
    by rewrite (dict_get_exposed _ _ _ _ _ _ _ _ _ _ Hi).
  - change (position (Port.rename ?n ?p)) with (position p).
    rewrite (placed_centre_position center_of padc port_orientation
               pad_port_spacing xsize pp port Hxs Hbranch Hcentre).
    destruct Hbranch as [pin Hpin]. unfold pin_of in Hpin.
    unfold center_at_clearance, ahead.
    repeat case_decide; try done; do 2 f_equal; ring.
  - done.
  - done.
  - done.
  - done.
Qed.

Lemma X12_pad_port_position_witness :
  ∃ out exposed,
    add_electrical_pads_shortest centred 0 1 (Qc_of_Z 50)
      select_ports_electrical None (Qc_of_Z 0) "M3" scenario
    = (inr (length scenario), scenario ++ [out])
    ∧ dict_get (pad_port_name (Component.name wire) 1) (Component.ports out)
      = Some exposed
    ∧ Some (position exposed)
      = ahead (Qc_of_Z 0) (Qc_of_Z 50 + Qc_of_Z 20 / Qc_of_Z 2)
          (electrical_port "e2" 200 0 0)
    ∧ Port.orientation exposed
      = Port.orientation
          (default no_port
             (dict_get "pad" (Component.ports (pad_of_size 20 20))))
    ∧ Port.width exposed
      = Port.width
          (default no_port
             (dict_get "pad" (Component.ports (pad_of_size 20 20))))
    ∧ Port.layer exposed
      = Port.layer
          (default no_port
             (dict_get "pad" (Component.ports (pad_of_size 20 20))))
    ∧ Port.port_type exposed
      = Port.port_type
          (default no_port
             (dict_get "pad" (Component.ports (pad_of_size 20 20)))).
Proof.
  apply (X12_pad_port_position centred scenario 0 1 wire (pad_of_size 20 20)
           (Qc_of_Z 50) (Qc_of_Z 0) (Qc_of_Z 20) "M3"
           select_ports_electrical None 1 (electrical_port "e2" 200 0 0)
           (default no_port
              (dict_get "pad" (Component.ports (pad_of_size 20 20))))).
  - reflexivity.
  - reflexivity.
  - reflexivity.
  - apply pad_of_size_ready.
  - apply wire_selection.
  - apply wire_collision_free.
  - by vm_compute.
  - eexists. by vm_compute.
  - reflexivity.
  - reflexivity.
  - reflexivity.
  - by vm_compute.
  - by vm_compute.
Defined.
